(** * Bluetooth LED Matrix firmware: protocol codec, mode machine,
      animator and button debouncer

    A shallow embedding of the firmware sources
    - [include/color.h]   (struct [color_t]),
    - [src/Button.cpp]    ([Button::read]),
    - [src/main.cpp]      ([loop], [randomColors], [btRespond] and the four
                           command handlers),
    followed by the properties of its specification.

    Machine integers are values of [Z]; every narrowing conversion the
    C++ code performs is written out ([uint8], [uint32], [int16]).
    Hardware and library collaborators (clock, pin, PRNG, serial port,
    LED driver) appear as explicit inputs or as small models. *)

From Stdlib Require Import ZArith Lia Bool.
From stdpp Require Import base list.

Local Open Scope Z_scope.

(** ** Fixed-width integers

    [uint8] and [uint32] are the conversions to [uint8_t] and
    [uint32_t]; [int16] is the two's-complement wrap-around that avr-gcc
    gives [count++] on the [int16_t] counter. *)

Definition uint8 (z : Z) : Z := z mod 2 ^ 8.
Definition uint32 (z : Z) : Z := z mod 2 ^ 32.
Definition int16 (z : Z) : Z := (z + 2 ^ 15) mod 2 ^ 16 - 2 ^ 15.

Definition is_byte (z : Z) : Prop := 0 <= z < 256.

(** ** The pseudo-random number generator

    The generator behind [random(max)] belongs to the Arduino core and
    the C library, not to the repository.  The successive raw results of
    the C library's [random()] (each in [0, RANDOM_MAX]) are an input
    tape, and [cursor] counts the draws made so far. *)

Record rng := mk_rng { tape : nat -> Z; cursor : nat }.

(** The raw results are not negative. *)
Definition rng_ok (s : rng) : Prop := forall n, 0 <= tape s n.

(** Modelled from the spec: one raw draw of the random source. *)
Definition raw_random (s : rng) : Z * rng :=
  (tape s (cursor s), mk_rng (tape s) (S (cursor s))).

(** Modelled from the spec: [random(max)], which draws from [0, max).
    As in the Arduino core:
    [if (howbig == 0) return 0; return random() % howbig;] *)
Definition random (howbig : Z) (s : rng) : Z * rng :=
  if howbig =? 0 then (0, s)
  else let '(raw, s') := raw_random s in (Z.rem raw howbig, s').

(** The tape that plays the given raw values and then zeros. *)
Definition tape_of (l : list Z) : rng := mk_rng (fun n => nth n l 0) 0.

(** ** color.h *)

Module Color.

Record color_t := mk { r : Z; g : Z; b : Z }.

(** Default member initialisers [r = 0, g = 0, b = 0]. *)
Definition zero : color_t := mk 0 0 0.

Definition wf (c : color_t) : Prop := is_byte (r c) /\ is_byte (g c) /\ is_byte (b c).

(** [bool operator==(const color_t &c) const] *)
Definition eqb (x c : color_t) : bool :=
  (r x =? r c) && (g x =? g c) && (b x =? b c).

(** One line of [fadeTo]:
    [if (r != c.r) r = (r < c.r) ? (r + 1) : (r - 1);] *)
Definition fade_channel (x t : Z) : Z :=
  if negb (x =? t) then uint8 (if x <? t then x + 1 else x - 1) else x.

(** [void fadeTo(const color_t &c)] *)
Definition fadeTo (x c : color_t) : color_t :=
  mk (fade_channel (r x) (r c)) (fade_channel (g x) (g c)) (fade_channel (b x) (b c)).

(** [static uint8_t getRnd(bool high) { return (uint8_t) random(high ? 256 : 8); }] *)
Definition getRnd (high : bool) (s : rng) : Z * rng :=
  let '(v, s') := random (if high then 256 else 8) s in (uint8 v, s').

(** [void setRandom()] *)
Definition setRandom (s : rng) : color_t * rng :=
  let '(color, s) := random 3 s in
  let '(r', s) := getRnd (color =? 0) s in
  let '(g', s) := getRnd (color =? 1) s in
  let '(b', s) := getRnd (color =? 2) s in
  (mk r' g' b', s).

(** Channel number [k] of a color: 0 is red, 1 is green, 2 is blue. *)
Definition channel (k : Z) (c : color_t) : Z :=
  if k =? 0 then r c else if k =? 1 then g c else b c.

(** Repeated calls of [fadeTo] with one fixed target. *)
Fixpoint fade_iter (k : nat) (x c : color_t) : color_t :=
  match k with
  | O => x
  | S k' => fade_iter k' (fadeTo x c) c
  end.

(** [max(|dr|, |dg|, |db|)] between a color and a target. *)
Definition dist (x c : color_t) : Z :=
  Z.max (Z.abs (r c - r x)) (Z.max (Z.abs (g c - g x)) (Z.abs (b c - b x))).

(** Closed form of one channel after [k] calls: it has moved
    [min k |t - x|] units from [x] in the direction of [t]. *)
Definition toward (x t : Z) (k : nat) : Z :=
  x + Z.sgn (t - x) * Z.min (Z.of_nat k) (Z.abs (t - x)).

(** A channel value [y] lies between the start [a] and the target [t]. *)
Definition between (a y t : Z) : Prop := a <= y <= t \/ t <= y <= a.

(** A relation of three channel values holds on red, green and blue. *)
Definition per_channel (P : Z -> Z -> Z -> Prop) (x y c : color_t) : Prop :=
  P (r x) (r y) (r c) /\ P (g x) (g y) (g c) /\ P (b x) (b y) (b c).

End Color.


(** ** The LED driver

    The display driver is the [Adafruit_NeoPixel] library, which is not
    part of the repository; the firmware only calls it.  The model keeps
    what the firmware can observe of it: the pixel buffer in RAM, and
    the colors last sent to the physical strip by [show()].  The
    firmware never sets a brightness, so colors are stored unscaled. *)

Module NeoPixel.

(** One pixel of the buffer: red, green, blue, each a [uint8_t]. *)
Definition rgb : Type := Z * Z * Z.

(** Modelled from the spec: the display driver's state, the pixel
    buffer of fixed length and the colors on the strip. *)
Record t := mk { pixels : list rgb; strip : list rgb }.

(** Modelled from the spec: the number of LEDs given to the constructor. *)
Definition numLEDs (L : t) : Z := Z.of_nat (length (pixels L)).

(** Modelled from the spec: the driver's packed color,
    [static uint32_t Color(uint8_t r, uint8_t g, uint8_t b)] of the
    library: [((uint32_t)r << 16) | ((uint32_t)g << 8) | b] *)
Definition Color (r g b : Z) : Z :=
  Z.lor (Z.lor (Z.shiftl r 16) (Z.shiftl g 8)) b.

(** Modelled from the spec: the three channels of a packed color, as
    the library extracts them:
    [(uint8_t)(c >> 16)], [(uint8_t)(c >> 8)], [(uint8_t)c]. *)
Definition unpack (c : Z) : rgb :=
  (uint8 (Z.shiftr c 16), uint8 (Z.shiftr c 8), uint8 c).

(** Modelled from the spec: the display driver's [setPixel(index, Color)],
    [setPixelColor(uint16_t n, uint8_t r, uint8_t g, uint8_t b)] of the
    library, where the write is guarded by [if (n < numLEDs)]. *)
Definition setPixelColor (L : t) (n r g b : Z) : t :=
  if n <? numLEDs L
  then mk (<[Z.to_nat n := (r, g, b)]> (pixels L)) (strip L)
  else L.

(** Modelled from the spec: [setPixelColor(uint16_t n, uint32_t c)] of
    the library, with the same guard. *)
Definition setPixelColor32 (L : t) (n c : Z) : t :=
  if n <? numLEDs L
  then mk (<[Z.to_nat n := unpack c]> (pixels L)) (strip L)
  else L.

(** Modelled from the spec: reading a pixel back,
    [getPixelColor(uint16_t n)] of the library: 0 when [n >= numLEDs],
    else the packed color of pixel [n]. *)
Definition getPixelColor (L : t) (n : Z) : Z :=
  if n >=? numLEDs L then 0
  else let '(r, g, b) := pixels L !!! Z.to_nat n in Color r g b.

(** Modelled from the spec: the display driver's [fill(Color)],
    [fill(uint32_t c)] of the library with its defaults
    [first = 0, count = 0]:
    [for (i = 0; i < numLEDs; i++) setPixelColor(i, c);] *)
Definition fill (L : t) (c : Z) : t :=
  foldl (fun L' i => setPixelColor32 L' i c) L (seqZ 0 (numLEDs L)).

(** Modelled from the spec: the display driver's [clear()], in the
    library [memset(pixels, 0, numBytes)]. *)
Definition clear (L : t) : t :=
  mk (replicate (length (pixels L)) (0, 0, 0)) (strip L).

(** Modelled from the spec: the display driver's [show()], which sends
    the pixel buffer to the physical strip. *)
Definition show (L : t) : t := mk (pixels L) (pixels L).

(** Modelled from the spec: the driver as constructed, [n] pixels, all
    dark. *)
Definition new (n : nat) : t := mk (replicate n (0, 0, 0)) (replicate n (0, 0, 0)).

(** The channels of a pixel are bytes. *)
Definition wf_rgb (p : rgb) : Prop :=
  is_byte p.1.1 /\ is_byte p.1.2 /\ is_byte p.2.

(** Every pixel of the buffer holds bytes. *)
Definition wf (L : t) : Prop := Forall wf_rgb (pixels L).

End NeoPixel.

(** ** Button.cpp *)

Module Button.

Inductive state_t := RELEASED | PRESSED | PRESSED_CONTINUOUSLY.

Definition state_eqb (x y : state_t) : bool :=
  match x, y with
  | RELEASED, RELEASED | PRESSED, PRESSED
  | PRESSED_CONTINUOUSLY, PRESSED_CONTINUOUSLY => true
  | _, _ => false
  end.

(** The function-local statics of [Button::read]. *)
Record statics := mk { read_at : Z; wasPressed : bool; mayReturn : bool }.

(** What one call of [Button::read] reads from the outside: the pin level
    returned by [digitalRead(pin)], the value of [millis()] in the
    condition, and the value of [millis()] stored into [read]. *)
Record sample := mk_sample { level : Z; now_cond : Z; now_set : Z }.

(** The statics as initialised by the first call made at time [t0]. *)
Definition init (t0 : Z) : statics := mk t0 false true.

(** [millis() - read > 200], in [uint32_t] arithmetic. *)
Definition elapsed (st : statics) (i : sample) : bool :=
  uint32 (now_cond i - read_at st) >? 200.

(** [Button::state_t Button::read() const] *)
Definition read (st : statics) (i : sample) : state_t * statics :=
  let returnValue := RELEASED in
  let state := level i =? 0 in
  if elapsed st i then
    let read' := now_set i in
    let returnValue :=
      if wasPressed st
      then (if state then PRESSED_CONTINUOUSLY else PRESSED)
      else returnValue in
    let wasPressed' :=
      if state && negb (wasPressed st) then true
      else if negb state then false
      else wasPressed st in
    if mayReturn st && negb (state_eqb returnValue RELEASED)
    then (returnValue, mk read' wasPressed' false)
    else
      let mayReturn' :=
        if state_eqb returnValue RELEASED then true else mayReturn st in
      (RELEASED, mk read' wasPressed' mayReturn')
  else (RELEASED, st).

(** The classification computed inside an elapsed window, before the
    [mayReturn] gate: the value of [returnValue] at line 27. *)
Definition classified (st : statics) (i : sample) : state_t :=
  if wasPressed st
  then (if level i =? 0 then PRESSED_CONTINUOUSLY else PRESSED)
  else RELEASED.

(** Successive calls of [read]; the results are listed in call order. *)
Fixpoint reads (st : statics) (l : list sample) : list state_t * statics :=
  match l with
  | [] => ([], st)
  | i :: l' =>
      let '(o, st') := read st i in
      let '(os, st'') := reads st' l' in
      (o :: os, st'')
  end.

(** Every call in the list is made after its window has elapsed. *)
Fixpoint at_boundaries (st : statics) (l : list sample) : Prop :=
  match l with
  | [] => True
  | i :: l' => elapsed st i = true /\ at_boundaries (read st i).2 l'
  end.

Definition pressed (i : sample) : Prop := level i = 0.
Definition released (i : sample) : Prop := level i <> 0.

(** Number of calls in a result list that reported [x]. *)
Fixpoint occurrences (x : state_t) (l : list state_t) : nat :=
  match l with
  | [] => 0
  | y :: l' => ((if state_eqb x y then 1 else 0) + occurrences x l')%nat
  end.

End Button.

(** ** main.cpp *)

Module Main.

Definition LED_COUNT : Z := 64.
Definition DELAY : Z := 50.

Inductive cmd_t := NONE | GET_LEDS | SET_LEDS | SET_LEDS_ALL.

(** [static_cast<uint8_t>(cmd)] *)
Definition cmd_byte (c : cmd_t) : Z :=
  match c with
  | NONE => 0x00
  | GET_LEDS => 0x01
  | SET_LEDS => 0x02
  | SET_LEDS_ALL => 0x03
  end.

Inductive state_t :=
  OK | INVALID_DATA_LENGTH | LED_OUT_OF_RANGE | INVALID_STATE | INVALID_COMMAND.

(** [static_cast<uint8_t>(state)] *)
Definition state_byte (s : state_t) : Z :=
  match s with
  | OK => 0x00
  | INVALID_DATA_LENGTH => 0x01
  | LED_OUT_OF_RANGE => 0x02
  | INVALID_STATE => 0xFE
  | INVALID_COMMAND => 0xFF
  end.

(** [bool operator==(int data, cmd_t cmd)] *)
Definition data_is (data : Z) (c : cmd_t) : bool := cmd_byte c =? data.

(** [static_cast<cmd_t>(data)] on the three values [cmdNone] admits. *)
Definition cmd_of (data : Z) : cmd_t :=
  if data =? 0x01 then GET_LEDS
  else if data =? 0x02 then SET_LEDS
  else if data =? 0x03 then SET_LEDS_ALL
  else NONE.

Inductive mode_t := OFF | RANDOM | BT.

(** The globals the command handlers touch: [leds] and [mode]. *)
Record globals := mk_globals { leds : NeoPixel.t; mode : mode_t }.

(** The locals of the drain loop inside [loop()].  Every store into
    [ledData] is guarded by [count < LED_COUNT * 4] or [count < 3], so
    with the declared 256 entries no index leaves the array. *)
Record frame := mk_frame {
  count : Z;            (* int16_t *)
  cmd : cmd_t;
  state : state_t;
  ledData : list Z      (* uint8_t [LED_COUNT * 4] *)
}.

Definition set_count (f : frame) (c : Z) : frame :=
  mk_frame c (cmd f) (state f) (ledData f).
Definition set_cmd (f : frame) (c : cmd_t) : frame :=
  mk_frame (count f) c (state f) (ledData f).
Definition set_state (f : frame) (s : state_t) : frame :=
  mk_frame (count f) (cmd f) s (ledData f).
Definition set_ledData (f : frame) (d : list Z) : frame :=
  mk_frame (count f) (cmd f) (state f) d.

(** [state == state_t::INVALID_DATA_LENGTH || state == state_t::OK] *)
Definition accepting (s : state_t) : bool :=
  match s with
  | INVALID_DATA_LENGTH | OK => true
  | _ => false
  end.

(** [void cmdNone(int16_t &, state_t &state, cmd_t &cmd, uint8_t data)] *)
Definition cmdNone (f : frame) (data : Z) : frame :=
  if data_is data GET_LEDS || data_is data SET_LEDS || data_is data SET_LEDS_ALL
  then set_cmd f (cmd_of data)
  else set_state f INVALID_COMMAND.

(** Body of the [for] loop of [cmdGetLeds] for one [i]. *)
Definition snapshot_led (L : NeoPixel.t) (d : list Z) (i : Z) : list Z :=
  let color := NeoPixel.getPixelColor L i in
  let d := <[Z.to_nat (i * 4) := i]> d in
  let d := <[Z.to_nat (i * 4 + 1) := uint8 (Z.shiftr color 16)]> d in
  let d := <[Z.to_nat (i * 4 + 2) := uint8 (Z.shiftr color 8)]> d in
  <[Z.to_nat (i * 4 + 3) := uint8 color]> d.

(** The loop [for (uint8_t i = 0; i < LED_COUNT; i++)] of [cmdGetLeds]. *)
Definition snapshot (L : NeoPixel.t) (d : list Z) : list Z :=
  foldl (snapshot_led L) d (seqZ 0 LED_COUNT).

#[global] Arguments snapshot : simpl never.

(** [void cmdGetLeds(int16_t count, state_t &state, uint8_t *ledData, uint8_t data)] *)
Definition cmdGetLeds (f : frame) (data : Z) (G : globals) : frame :=
  if count f <? 0 then set_state f INVALID_STATE
  else if (count f =? 0) && accepting (state f) then
    set_state (set_ledData f (snapshot (leds G) (ledData f))) OK
  else f.

(** [void cmdSetLeds(int16_t count, state_t &state, uint8_t *ledData, uint8_t data)] *)
Definition cmdSetLeds (f : frame) (data : Z) (G : globals) : frame * globals :=
  if count f <? 0 then (set_state f INVALID_STATE, G)
  else if (count f <? LED_COUNT * 4) && accepting (state f) then
    let d := <[Z.to_nat (count f) := data]> (ledData f) in
    let f := set_ledData f d in
    if Z.rem (count f) 4 =? 3 then
      let i := Z.quot (count f) 4 in
      let n := d !!! Z.to_nat (i * 4) in
      let r := d !!! Z.to_nat (i * 4 + 1) in
      let g := d !!! Z.to_nat (i * 4 + 2) in
      let b := d !!! Z.to_nat (i * 4 + 3) in
      if i >=? LED_COUNT then (set_state f LED_OUT_OF_RANGE, G)
      else
        (set_state f OK,
         mk_globals (NeoPixel.show (NeoPixel.setPixelColor (leds G) n r g b)) BT)
    else (f, G)
  else (f, G).

(** [void cmdSetLedsAll(int16_t count, state_t &state, uint8_t *ledData, uint8_t data)] *)
Definition cmdSetLedsAll (f : frame) (data : Z) (G : globals) : frame * globals :=
  if count f <? 0 then (set_state f INVALID_STATE, G)
  else if (count f <? 3) && accepting (state f) then
    let d := <[Z.to_nat (count f) := data]> (ledData f) in
    let f := set_ledData f d in
    let r := d !!! 0%nat in
    let g := d !!! 1%nat in
    let b := d !!! 2%nat in
    (set_state f OK,
     mk_globals (NeoPixel.show (NeoPixel.fill (leds G) (NeoPixel.Color r g b))) BT)
  else (f, G).

(** The [switch (cmd)] inside the drain loop, for one received byte. *)
Definition dispatch (f : frame) (data : Z) (G : globals) : frame * globals :=
  match cmd f with
  | NONE =>
      let f := cmdNone f (uint8 data) in
      match cmd f with
      | GET_LEDS =>
          let f := set_count f 0 in      (* falls through to GET_LEDS *)
          (cmdGetLeds f (uint8 data) G, G)
      | _ => (f, G)
      end
  | GET_LEDS => (cmdGetLeds f (uint8 data) G, G)
  | SET_LEDS => cmdSetLeds f (uint8 data) G
  | SET_LEDS_ALL => cmdSetLedsAll f (uint8 data) G
  end.

(** One pass through the body of the drain loop for a byte that was
    read: the [switch], then [count++]. *)
Definition iteration (f : frame) (data : Z) (G : globals) : frame * globals :=
  let '(f', G') := dispatch f data G in
  (set_count f' (int16 (count f' + 1)), G').

(** The [while (btSer.available())] loop over the values that
    [btSer.read()] returns; [None] is the early [return] on [data < 0]. *)
Fixpoint drain (input : list Z) (f : frame) (G : globals) : option frame * globals :=
  match input with
  | [] => (Some f, G)
  | data :: rest =>
      if data <? 0 then (None, G)
      else
        let '(f', G') := iteration f data G in
        drain rest f' G'
  end.

(** [void btRespond(cmd_t cmd, state_t state, const uint8_t *data, size_t length)]:
    the bytes written to [btSer]. *)
Definition btRespond (c : cmd_t) (s : state_t) (data : option (list Z)) (length : nat)
  : list Z :=
  [cmd_byte c; state_byte s] ++
  match data with
  | Some d => take length d
  | None => []
  end.

(** The response part of [loop()], lines 203 to 218. *)
Definition respond (f : frame) : list Z :=
  match state f with
  | OK =>
      match cmd f with
      | NONE => []
      | GET_LEDS => btRespond (cmd f) (state f) (Some (ledData f)) (Z.to_nat (LED_COUNT * 4))
      | SET_LEDS | SET_LEDS_ALL => btRespond (cmd f) (state f) None 0
      end
  | _ => btRespond (cmd f) (state f) None 0
  end.

(** The payload of a successful GET_LEDS response as the protocol
    describes it: one quadruple (index, r, g, b) per LED, in ascending
    index order, the first LED of the list having index [i]. *)
Fixpoint quadruples_from (i : Z) (px : list NeoPixel.rgb) : list Z :=
  match px with
  | [] => []
  | p :: px' => i :: p.1.1 :: p.1.2 :: p.2 :: quadruples_from (i + 1) px'
  end.

Definition quadruples (px : list NeoPixel.rgb) : list Z := quadruples_from 0 px.

(** The frame locals as declared: [count = -1], [cmd = NONE],
    [state = INVALID_DATA_LENGTH], and [ledData] holding whatever the
    stack held. *)
Definition fresh (stack : list Z) : frame :=
  mk_frame (-1) NONE INVALID_DATA_LENGTH stack.

(** The serial half of [loop()], from line 158 on: the globals afterwards
    and the bytes written back. *)
Definition loop_serial (input stack : list Z) (G : globals) : globals * list Z :=
  match input with
  | [] => (G, [])
  | _ =>
      match drain input (fresh stack) G with
      | (Some f, G') => (G', respond f)
      | (None, G') => (G', [])
      end
  end.

(** The statics of [randomColors]. *)
Record animator := mk_animator {
  current : list Color.color_t;
  target : list Color.color_t;
  delay : Z
}.

#[global] Instance color_inhabited : Inhabited Color.color_t := populate Color.zero.

(** Body of the [for] loop of [randomColors] for pixel [i]. *)
Definition randomColors_pixel
    (acc : list Color.color_t * list Color.color_t * NeoPixel.t * rng) (i : Z)
  : list Color.color_t * list Color.color_t * NeoPixel.t * rng :=
  let '(cur, tgt, L, s) := acc in
  let ci := cur !!! Z.to_nat i in
  let ti := tgt !!! Z.to_nat i in
  let '(ti, s) := if Color.eqb ci ti then Color.setRandom s else (ti, s) in
  let ci := Color.fadeTo ci ti in
  (<[Z.to_nat i := ci]> cur, <[Z.to_nat i := ti]> tgt,
   NeoPixel.setPixelColor L i (Color.r ci) (Color.g ci) (Color.b ci), s).

(** [void randomColors()]; [now_cond] and [now_set] are the two readings
    of [millis()]. *)
Definition randomColors (a : animator) (L : NeoPixel.t) (s : rng) (now_cond now_set : Z)
  : animator * NeoPixel.t * rng :=
  if negb ((delay a =? 0) || (uint32 (now_cond - delay a) >? DELAY)) then (a, L, s)
  else
    let '(cur, tgt, L, s) :=
      foldl randomColors_pixel (current a, target a, L, s) (seqZ 0 LED_COUNT) in
    (mk_animator cur tgt now_set, NeoPixel.show L, s).

(** The whole device: globals plus the function-local statics. *)
Record firmware := mk_firmware {
  glob : globals;
  button : Button.statics;
  anim : animator;
  prng : rng
}.

(** What one call of [loop()] reads from the outside. *)
Record inputs := mk_inputs {
  pin : Button.sample;       (* for [button.read()] *)
  anim_cond : Z;             (* [millis()] readings of [randomColors] *)
  anim_set : Z;
  serial : list Z;           (* results of [btSer.read()] while available *)
  stack : list Z             (* initial contents of [ledData] *)
}.

(** First [switch] of [loop()]: the button event sets the mode. *)
Definition loop_button (ev : Button.state_t) (m : mode_t) : mode_t :=
  match ev with
  | Button.PRESSED => RANDOM
  | Button.PRESSED_CONTINUOUSLY => OFF
  | Button.RELEASED => m
  end.

(** Second [switch] of [loop()].  In [OFF] the strip is cleared and the
    CPU sleeps; the function is resumed by the button interrupt, whose
    handler and the line after [sleep_cpu()] both set [mode = RANDOM]. *)
Definition loop_mode (m : mode_t) (L : NeoPixel.t) (a : animator) (s : rng)
    (i : inputs) : mode_t * NeoPixel.t * animator * rng :=
  match m with
  | OFF => (RANDOM, NeoPixel.show (NeoPixel.clear L), a, s)
  | RANDOM =>
      let '(a', L', s') := randomColors a L s (anim_cond i) (anim_set i) in
      (RANDOM, L', a', s')
  | BT => (BT, L, a, s)
  end.

(** [void loop()]: the device afterwards and the bytes written to [btSer]. *)
Definition loop (fw : firmware) (i : inputs) : firmware * list Z :=
  let '(ev, btn) := Button.read (button fw) (pin i) in
  let m := loop_button ev (mode (glob fw)) in
  let '(m, L, a, s) := loop_mode m (leds (glob fw)) (anim fw) (prng fw) i in
  let '(G, out) := loop_serial (serial i) (stack i) (mk_globals L m) in
  (mk_firmware G btn a s, out).

(** The device after [setup()], with the first [button.read()] at [t0]. *)
Definition boot (t0 : Z) (s : rng) : firmware :=
  mk_firmware
    (mk_globals (NeoPixel.new (Z.to_nat LED_COUNT)) RANDOM)
    (Button.init t0)
    (mk_animator (replicate (Z.to_nat LED_COUNT) Color.zero)
                 (replicate (Z.to_nat LED_COUNT) Color.zero) 0)
    s.


(** A SET_LEDS group on the wire: (index, r, g, b). *)
Definition group : Type := Z * Z * Z * Z.

Definition group_index (q : group) : Z := q.1.1.1.
Definition group_color (q : group) : NeoPixel.rgb := (q.1.1.2, q.1.2, q.2).

Definition group_bytes (q : group) : Prop :=
  is_byte q.1.1.1 /\ is_byte q.1.1.2 /\ is_byte q.1.2 /\ is_byte q.2.

Definition encode_groups (gs : list group) : list Z :=
  flat_map (fun q : group => [q.1.1.1; q.1.1.2; q.1.2; q.2]) gs.

(** A group whose LED index is in range. *)
Definition valid_group (q : group) : Prop :=
  group_bytes q /\ group_index q < LED_COUNT.

(** The frame [0x02, (index, r, g, b)*]. *)
Definition set_leds_frame (gs : list group) : list Z := 0x02 :: encode_groups gs.

(** What [cmdSetLeds] does to the globals when a group completes. *)
Definition write_group (G : globals) (q : group) : globals :=
  mk_globals
    (NeoPixel.show (NeoPixel.setPixelColor (leds G) q.1.1.1 q.1.1.2 q.1.2 q.2))
    BT.

(** The store into the pixel buffer made for one group. *)
Definition store_group (px : list NeoPixel.rgb) (q : group) : list NeoPixel.rgb :=
  <[Z.to_nat (group_index q) := group_color q]> px.


(** The globals as [setup()] leaves them in shape: [LED_COUNT] pixels of
    byte-valued channels. *)
Definition wf_globals (G : globals) : Prop :=
  NeoPixel.numLEDs (leds G) = LED_COUNT /\ NeoPixel.wf (leds G).

(** What the drain loop maintains about the snapshot, [G0] being the
    globals when the frame began: the buffer keeps its size; until a
    SET command is recognised the globals are those of the start; a
    GET_LEDS frame with status OK holds the quadruples of all LEDs; and
    the status is not OK while no command is recognised. *)
Definition snapshot_inv (G0 : globals) (f : frame) (G : globals) : Prop :=
  length (ledData f) = 256%nat /\
  (cmd f = NONE \/ cmd f = GET_LEDS -> G = G0) /\
  (cmd f = GET_LEDS -> state f = OK ->
   ledData f = quadruples (NeoPixel.pixels (leds G0))) /\
  (cmd f = NONE -> state f <> OK).

(** What the drain loop maintains about [count] while the bytes still to
    come keep it below the [int16_t] limit: it is at least -1, it does
    not wrap, and it is not negative once a command is recognised. *)
Definition count_inv (f : frame) (rest : list Z) : Prop :=
  -1 <= count f /\
  Z.max (count f) 0 + Z.of_nat (length rest) <= 32767 /\
  (cmd f <> NONE -> 0 <= count f).

(** The first byte of the input that is a command tag, as a command;
    [NONE] when there is none. *)
Fixpoint first_tag (input : list Z) : cmd_t :=
  match input with
  | [] => NONE
  | data :: rest =>
      match cmd_of (uint8 data) with
      | NONE => first_tag rest
      | c => c
      end
  end.

End Main.

(** ** Further definitions for the properties of the code *)

(** color.h: [explicit operator uint32_t() const
    { return Adafruit_NeoPixel::Color(r, g, b); }] *)
Definition color_to_uint32 (c : Color.color_t) : Z :=
  NeoPixel.Color (Color.r c) (Color.g c) (Color.b c).

(** The three channels of a [color_t] as a pixel of the driver. *)
Definition color_rgb (c : Color.color_t) : NeoPixel.rgb :=
  (Color.r c, Color.g c, Color.b c).

(** Number of pixels below index [k] whose current color equals their
    target, the test [current[i] == target[i]] of [randomColors]. *)
Fixpoint arrived_upto (k : nat) (cur tgt : list Color.color_t) : nat :=
  match k with
  | O => O
  | S k' =>
      (arrived_upto k' cur tgt +
       (if Color.eqb (cur !!! k') (tgt !!! k') then 1 else 0))%nat
  end.

(** The state that the loop of [randomColors] threads through the
    pixels: current colors, target colors, driver, random source. *)
Definition anim_acc : Type :=
  list Color.color_t * list Color.color_t * NeoPixel.t * rng.

(** What the loop of [randomColors] has done when the pixels below [k]
    are processed, [a0] being the state before the loop and [a1] the
    state now: sizes, strip and random tape are kept; four random values
    were taken per arrived pixel; every pixel below [k] has made one
    [fadeTo] step toward its target, which was redrawn only if it had
    arrived, and the driver holds its new color; the pixels from [k] on
    are untouched. *)
Definition animated_upto (k : nat) (a0 a1 : anim_acc) : Prop :=
  length a1.1.1.1 = length a0.1.1.1 /\
  length a1.1.1.2 = length a0.1.1.2 /\
  length (NeoPixel.pixels a1.1.2) = length (NeoPixel.pixels a0.1.2) /\
  NeoPixel.strip a1.1.2 = NeoPixel.strip a0.1.2 /\
  tape a1.2 = tape a0.2 /\
  cursor a1.2 = (cursor a0.2 + 4 * arrived_upto k a0.1.1.1 a0.1.1.2)%nat /\
  (forall j : nat, (j < k)%nat ->
     a1.1.1.1 !!! j = Color.fadeTo (a0.1.1.1 !!! j) (a1.1.1.2 !!! j) /\
     (Color.eqb (a0.1.1.1 !!! j) (a0.1.1.2 !!! j) = false ->
      a1.1.1.2 !!! j = a0.1.1.2 !!! j) /\
     NeoPixel.pixels a1.1.2 !!! j = color_rgb (a1.1.1.1 !!! j)) /\
  (forall j : nat, (k <= j)%nat ->
     a1.1.1.1 !!! j = a0.1.1.1 !!! j /\
     a1.1.1.2 !!! j = a0.1.1.2 !!! j /\
     NeoPixel.pixels a1.1.2 !!! j = NeoPixel.pixels a0.1.2 !!! j).

(** The complete groups of four bytes at the front of a SET_LEDS
    payload, in order; up to three trailing bytes form no group. *)
Fixpoint groups_of (payload : list Z) : list Main.group :=
  match payload with
  | n :: r :: g :: b :: rest => (n, r, g, b) :: groups_of rest
  | _ => []
  end.

(** The shape of the device that [loop()] keeps: [LED_COUNT] pixels of
    bytes in the driver, and [LED_COUNT] current and target colors of
    bytes in the animator. *)
Definition wf_firmware (fw : Main.firmware) : Prop :=
  Main.wf_globals (Main.glob fw) /\
  length (Main.current (Main.anim fw)) = 64%nat /\
  length (Main.target (Main.anim fw)) = 64%nat /\
  Forall Color.wf (Main.current (Main.anim fw)) /\
  Forall Color.wf (Main.target (Main.anim fw)).

(** The same shape for the values the [for] loop of [randomColors]
    works on. *)
Definition wf_anim_acc (a : anim_acc) : Prop :=
  let '(cur, tgt, L, _) := a in
  length cur = 64%nat /\ length tgt = 64%nat /\
  Forall Color.wf cur /\ Forall Color.wf tgt /\
  NeoPixel.numLEDs L = Main.LED_COUNT /\ NeoPixel.wf L.

(** Successive calls of [loop()], one per element of [ins]. *)
Definition run (fw : Main.firmware) (ins : list Main.inputs) : Main.firmware :=
  foldl (fun fw i => (Main.loop fw i).1) fw ins.

(** [loop()] up to the line [if (!btSer.available()) return;]: the mode,
    the driver, the statics of [randomColors] and the random source
    after the two [switch] statements. *)
Definition after_switches (fw : Main.firmware) (i : Main.inputs)
  : Main.mode_t * NeoPixel.t * Main.animator * rng :=
  Main.loop_mode
    (Main.loop_button (Button.read (Main.button fw) (Main.pin i)).1
                      (Main.mode (Main.glob fw)))
    (Main.leds (Main.glob fw)) (Main.anim fw) (Main.prng fw) i.




(** * Properties *)

Lemma uint8_range z : is_byte (uint8 z).
Proof. unfold is_byte, uint8. apply Z.mod_pos_bound. lia. Qed.

Lemma uint8_id z : is_byte z -> uint8 z = z.
Proof. unfold is_byte, uint8. intros H. apply Z.mod_small. lia. Qed.

Lemma int16_id z : - 2 ^ 15 <= z < 2 ^ 15 -> int16 z = z.
Proof. unfold int16. intros H. rewrite Z.mod_small; lia. Qed.


(** ** Properties of [color_t] *)

Section FadeChannel.
Variables x t : Z.
Hypothesis Hx : is_byte x.
Hypothesis Ht : is_byte t.

Lemma fade_channel_step :
  Color.fade_channel x t = x + Z.sgn (t - x).
Proof using Hx Ht.
  unfold Color.fade_channel, is_byte in *.
  destruct (Z.eqb_spec x t) as [->|Hne]; simpl.
  - rewrite Z.sub_diag. simpl. lia.
  - destruct (Z.ltb_spec x t); rewrite uint8_id by (unfold is_byte; lia); lia.
Qed.

Lemma fade_channel_byte : is_byte (Color.fade_channel x t).
Proof using Hx Ht. rewrite fade_channel_step. unfold is_byte in *. lia. Qed.
End FadeChannel.

Lemma fadeTo_wf x c : Color.wf x -> Color.wf c -> Color.wf (Color.fadeTo x c).
Proof.
  intros (?&?&?) (?&?&?). repeat split; simpl; apply fade_channel_byte; assumption.
Qed.

Lemma fade_iter_wf k : forall x c,
  Color.wf x -> Color.wf c -> Color.wf (Color.fade_iter k x c).
Proof. induction k; simpl; intros; auto using fadeTo_wf. Qed.

Lemma toward_succ x t k :
  is_byte x -> is_byte t ->
  Color.toward (Color.fade_channel x t) t k = Color.toward x t (S k).
Proof.
  intros Hx Ht. rewrite fade_channel_step by assumption.
  unfold Color.toward, is_byte in *. nia.
Qed.

Lemma fade_iter_closed k : forall x c,
  Color.wf x -> Color.wf c ->
  Color.fade_iter k x c =
  Color.mk (Color.toward (Color.r x) (Color.r c) k)
           (Color.toward (Color.g x) (Color.g c) k)
           (Color.toward (Color.b x) (Color.b c) k).
Proof.
  induction k as [|k IH]; intros x c Hx Hc.
  - destruct x as [xr xg xb]. unfold Color.toward. simpl. f_equal; lia.
  - simpl. rewrite IH by auto using fadeTo_wf.
    destruct Hx as (?&?&?), Hc as (?&?&?). simpl.
    f_equal; apply toward_succ; assumption.
Qed.

Lemma toward_reach x t k :
  Z.abs (t - x) <= Z.of_nat k -> Color.toward x t k = t.
Proof. unfold Color.toward. intros H. rewrite Z.min_r by lia. nia. Qed.

Lemma toward_between x t k : Color.between x (Color.toward x t k) t.
Proof. unfold Color.between, Color.toward. nia. Qed.

(** C7: iterating [fadeTo] with a fixed target on any color reaches the
    target within [max(|dr|, |dg|, |db|)] calls and stays there; every
    call moves every channel by exactly one unit toward its target
    channel, or leaves it when equal; and no channel ever leaves the
    interval between its start value and its target (no overshoot). *)
Theorem fadeTo_converges (x c : Color.color_t) :
  Color.wf x -> Color.wf c ->
  (exists k : nat, Z.of_nat k <= Color.dist x c /\ Color.fade_iter k x c = c) /\
  (forall k : nat, Color.dist x c <= Z.of_nat k -> Color.fade_iter k x c = c) /\
  (forall k : nat,
     let y := Color.fade_iter k x c in
     Color.per_channel (fun a a' t => a' = a + Z.sgn (t - a)) y (Color.fadeTo y c) c) /\
  (forall k : nat,
     Color.per_channel Color.between x (Color.fade_iter k x c) c).
Proof.
  intros Hx Hc.
  assert (Hreach : forall k : nat,
             Color.dist x c <= Z.of_nat k -> Color.fade_iter k x c = c).
  { intros k Hk. rewrite fade_iter_closed by assumption.
    unfold Color.dist in Hk. destruct c as [cr cg cb]; simpl in *.
    f_equal; apply toward_reach; lia. }
  split; [|split; [exact Hreach|split]].
  - exists (Z.to_nat (Color.dist x c)).
    assert (0 <= Color.dist x c) by (unfold Color.dist; lia).
    split; [lia|]. apply Hreach. lia.
  - intros k y.
    assert (Hy : Color.wf y) by (apply fade_iter_wf; assumption).
    destruct Hy as (?&?&?), Hc as (?&?&?).
    repeat split; simpl; apply fade_channel_step; assumption.
  - intros k. rewrite fade_iter_closed by assumption.
    repeat split; simpl; apply toward_between.
Qed.

Lemma fadeTo_converges_witness :
  Color.wf (Color.mk 10 200 0) /\ Color.wf (Color.mk 13 190 0) /\
  Color.fade_iter 10 (Color.mk 10 200 0) (Color.mk 13 190 0) = Color.mk 13 190 0.
Proof.
  assert (Hx : Color.wf (Color.mk 10 200 0)) by (repeat split; simpl; lia).
  assert (Hc : Color.wf (Color.mk 13 190 0)) by (repeat split; simpl; lia).
  split; [exact Hx|split; [exact Hc|]].
  apply (fadeTo_converges _ _ Hx Hc). vm_compute. discriminate.
Defined.

(** ** The random target *)

Lemma random_spec howbig s :
  rng_ok s -> 0 < howbig ->
  random howbig s = (tape s (cursor s) mod howbig, mk_rng (tape s) (S (cursor s))).
Proof.
  intros Hs Hh. unfold random, raw_random.
  destruct (Z.eqb_spec howbig 0); [lia|].
  rewrite Z.rem_mod_nonneg by (auto; lia). reflexivity.
Qed.

Lemma getRnd_spec high s :
  rng_ok s ->
  Color.getRnd high s =
  (tape s (cursor s) mod (if high then 256 else 8), mk_rng (tape s) (S (cursor s))).
Proof.
  intros Hs. unfold Color.getRnd.
  rewrite random_spec by (auto; destruct high; lia).
  f_equal. apply uint8_id. unfold is_byte.
  destruct high.
  - apply Z.mod_pos_bound. lia.
  - pose proof (Z.mod_pos_bound (tape s (cursor s)) 8). lia.
Qed.

Lemma rng_ok_next s : rng_ok s -> rng_ok (mk_rng (tape s) (S (cursor s))).
Proof. intros H n. apply H. Qed.

Lemma setRandom_spec s :
  rng_ok s ->
  let draw (n : nat) := tape s (cursor s + n)%nat in
  let k := draw 0%nat mod 3 in
  Color.setRandom s =
  (Color.mk (draw 1%nat mod (if k =? 0 then 256 else 8))
            (draw 2%nat mod (if k =? 1 then 256 else 8))
            (draw 3%nat mod (if k =? 2 then 256 else 8)),
   mk_rng (tape s) (cursor s + 4)%nat).
Proof.
  intros Hs draw k. unfold Color.setRandom.
  rewrite random_spec by (auto; lia).
  pose proof (rng_ok_next _ Hs) as H1.
  pose proof (rng_ok_next _ H1) as H2.
  pose proof (rng_ok_next _ H2) as H3.
  rewrite !getRnd_spec by assumption. simpl tape; simpl cursor.
  unfold k, draw.
  replace (cursor s + 0)%nat with (cursor s) by lia.
  replace (cursor s + 1)%nat with (S (cursor s)) by lia.
  replace (cursor s + 2)%nat with (S (S (cursor s))) by lia.
  replace (cursor s + 3)%nat with (S (S (S (cursor s)))) by lia.
  replace (cursor s + 4)%nat with (S (S (S (S (cursor s))))) by lia.
  reflexivity.
Qed.

Lemma tape_of_ok l : Forall (fun z => 0 <= z) l -> rng_ok (tape_of l).
Proof.
  intros H n. simpl. revert n.
  induction H as [|z l Hz _ IH]; intros [|n]; simpl; try lia. apply IH.
Qed.

(** C5 (as the code has it): when pixel [i] has reached its target, the
    loop body of [randomColors] replaces the target by a fresh draw of
    [setRandom].  Over the raw random values as inputs, the channel chosen
    by [random(3)] is the one drawn from the wide range [0,256); each of
    the two other channels is drawn from the narrow range [0,8). *)
Theorem randomColors_new_target
    (cur tgt : list Color.color_t) (L : NeoPixel.t) (s : rng) (i : Z) :
  rng_ok s ->
  0 <= i < Z.of_nat (length tgt) ->
  Color.eqb (cur !!! Z.to_nat i) (tgt !!! Z.to_nat i) = true ->
  let t := (Main.randomColors_pixel (cur, tgt, L, s) i).1.1.2 !!! Z.to_nat i in
  let draw (n : nat) := tape s (cursor s + n)%nat in
  let k := draw 0%nat mod 3 in
  t = (Color.setRandom s).1 /\
  0 <= k < 3 /\
  Color.channel k t = draw (S (Z.to_nat k)) mod 256 /\
  (forall j, 0 <= j < 3 -> j <> k ->
     Color.channel j t = draw (S (Z.to_nat j)) mod 8 /\
     0 <= Color.channel j t < 8).
Proof.
  intros Hs Hi Heq t draw k.
  assert (Ht : t = (Color.setRandom s).1).
  { unfold t, Main.randomColors_pixel. rewrite Heq.
    destruct (Color.setRandom s) as [t' s']. simpl.
    apply list_lookup_total_insert_eq. lia. }
  split; [exact Ht|].
  assert (Hk : 0 <= k < 3) by (apply Z.mod_pos_bound; lia).
  split; [exact Hk|].
  rewrite Ht, (setRandom_spec s Hs). cbv zeta. unfold fst.
  change (tape s (cursor s + 0)%nat mod 3) with k.
  clear Ht t. clearbody k.
  assert (Hcases : k = 0 \/ k = 1 \/ k = 2) by lia.
  split.
  - destruct Hcases as [E|[E|E]]; subst k; reflexivity.
  - intros j Hj Hjk.
    assert (Hjc : j = 0 \/ j = 1 \/ j = 2) by lia.
    destruct Hcases as [E|[E|E]]; subst k;
      destruct Hjc as [F|[F|F]]; subst j; try lia;
      (split; [reflexivity|]); unfold Color.channel; simpl;
      apply Z.mod_pos_bound; lia.
Qed.

Lemma randomColors_new_target_witness :
  let cur := [Color.mk 1 2 3] in
  let tgt := [Color.mk 1 2 3] in
  let s := tape_of [4; 200; 13; 300] in
  (Main.randomColors_pixel (cur, tgt, NeoPixel.new 1, s) 0).1.1.2 !!! 0%nat
  = Color.mk 0 13 4.
Proof.
  intros cur tgt s.
  assert (Hs : rng_ok s).
  { apply tape_of_ok. repeat constructor; lia. }
  assert (Hi : 0 <= 0 < Z.of_nat (length tgt)) by (simpl; lia).
  assert (He : Color.eqb (cur !!! Z.to_nat 0) (tgt !!! Z.to_nat 0) = true)
    by reflexivity.
  destruct (randomColors_new_target cur tgt (NeoPixel.new 1) s 0 Hs Hi He)
    as [Ht _].
  exact (eq_trans Ht eq_refl).
Defined.

(** C5 as the specification words it (the chosen channel is the narrow
    one) fails: with [random(3)] returning 0 and the next raw value 200,
    the chosen red channel is 200. *)
Lemma setRandom_chosen_channel_not_narrow :
  ~ (forall s : rng, rng_ok s ->
       let k := (random 3 s).1 in
       0 <= Color.channel k (Color.setRandom s).1 < 8).
Proof.
  intros H.
  assert (Hs : rng_ok (tape_of [0; 200; 5; 3])).
  { apply tape_of_ok. repeat constructor; lia. }
  specialize (H _ Hs). vm_compute in H. destruct H as [_ H]. discriminate H.
Qed.

(** ** The button debouncer *)

Section ButtonWindows.
Import Button.

Lemma read_not_elapsed st i : elapsed st i = false -> read st i = (RELEASED, st).
Proof. unfold read. intros ->. reflexivity. Qed.

(** A window evaluated while the previous one saw the button up. *)
Lemma read_was_up st i :
  elapsed st i = true -> wasPressed st = false ->
  read st i = (RELEASED, mk (now_set i) (level i =? 0) true).
Proof.
  unfold read. intros -> ->. rewrite andb_false_r. simpl.
  destruct (level i =? 0); reflexivity.
Qed.

(** A window evaluated while the previous one saw the button down. *)
Lemma read_was_down st i :
  elapsed st i = true -> wasPressed st = true ->
  read st i =
  (if mayReturn st
   then (if level i =? 0 then PRESSED_CONTINUOUSLY else PRESSED)
   else RELEASED,
   mk (now_set i) (level i =? 0) false).
Proof.
  unfold read. intros -> ->.
  destruct (level i =? 0), (mayReturn st); reflexivity.
Qed.

Lemma level_pressed i : pressed i -> (level i =? 0) = true.
Proof. unfold pressed. intros ->. reflexivity. Qed.

Lemma level_released i : released i -> (level i =? 0) = false.
Proof. unfold released. intros H. apply Z.eqb_neq. exact H. Qed.

(** Once nothing can be reported (the button was up, or the hold has
    already been reported), windows that see the button up report
    nothing. *)
Lemma reads_released_quiet l : forall st,
  wasPressed st && mayReturn st = false ->
  Forall released l -> at_boundaries st l ->
  (reads st l).1 = replicate (length l) RELEASED.
Proof.
  induction l as [|i l IH]; intros st Hq Hl Hb; [reflexivity|].
  inversion Hl as [|? ? Hi Hl']; subst.
  destruct Hb as [He Hb]. simpl.
  assert (Hr : read st i = (RELEASED, (read st i).2) /\
               wasPressed (read st i).2 = false).
  { destruct (wasPressed st) eqn:Hw.
    - rewrite read_was_down by assumption. simpl in Hq. rewrite Hq.
      rewrite level_released by assumption. auto.
    - rewrite read_was_up by assumption.
      rewrite level_released by assumption. auto. }
  destruct Hr as [Hr Hw'].
  specialize (IH (read st i).2). rewrite Hw' in IH.
  specialize (IH eq_refl Hl' Hb).
  rewrite Hr. simpl. destruct (reads (read st i).2 l) as [os st'].
  simpl in *. rewrite IH. reflexivity.
Qed.

(** After a hold has been reported, the rest of the hold and the
    release that ends it report nothing. *)
Lemma reads_reported_quiet hold : forall st rels,
  wasPressed st = true -> mayReturn st = false ->
  Forall pressed hold -> Forall released rels ->
  at_boundaries st (hold ++ rels) ->
  (reads st (hold ++ rels)).1 = replicate (length hold + length rels) RELEASED.
Proof.
  induction hold as [|i hold IH]; intros st rels Hw Hm Hh Hr Hb.
  - apply reads_released_quiet; simpl; auto. rewrite Hw, Hm. reflexivity.
  - inversion Hh as [|? ? Hi Hh']; subst.
    destruct Hb as [He Hb]. simpl.
    rewrite read_was_down in * by assumption. rewrite Hm in *.
    rewrite level_pressed in * by assumption. simpl in Hb.
    pose proof (fun H1 H2 => IH _ rels H1 H2 Hh' Hr Hb) as IH'.
    specialize (IH' eq_refl eq_refl). clear IH. rename IH' into IH.
    destruct (reads _ (hold ++ rels)) as [os st']. simpl in *.
    rewrite IH. reflexivity.
Qed.
End ButtonWindows.

(** C8: with one call of [Button::read] per elapsed window,
    (a) a hold seen in two or more consecutive windows, starting after a
        window that saw the button up, reports [PRESSED_CONTINUOUSLY] in
        exactly one window (the second) and nothing else, up to and
        including its release;
    (b) a press seen in exactly one window and then released reports
        [PRESSED] exactly once, in the window of the release;
    (c) a call made before the window has elapsed returns [RELEASED] and
        leaves the statics untouched;
    (d) two windows that see the button up are enough for a window
        classified [RELEASED], which sets [mayReturn] again. *)
Theorem Button_read_windows :
  (forall st hold rels,
     Button.wasPressed st = false ->
     Forall Button.pressed hold -> (2 <= length hold)%nat ->
     Forall Button.released rels ->
     Button.at_boundaries st (hold ++ rels) ->
     (Button.reads st (hold ++ rels)).1 =
       [Button.RELEASED; Button.PRESSED_CONTINUOUSLY] ++
       replicate (length hold - 2 + length rels) Button.RELEASED /\
     Button.occurrences Button.PRESSED_CONTINUOUSLY
       (Button.reads st (hold ++ rels)).1 = 1%nat) /\
  (forall st p rel rels,
     Button.wasPressed st = false ->
     Button.pressed p -> Button.released rel -> Forall Button.released rels ->
     Button.at_boundaries st (p :: rel :: rels) ->
     (Button.reads st (p :: rel :: rels)).1 =
       [Button.RELEASED; Button.PRESSED] ++
       replicate (length rels) Button.RELEASED /\
     Button.occurrences Button.PRESSED
       (Button.reads st (p :: rel :: rels)).1 = 1%nat) /\
  (forall st i,
     Button.elapsed st i = false ->
     Button.read st i = (Button.RELEASED, st)) /\
  (forall st r1 r2,
     Button.released r1 -> Button.released r2 ->
     Button.at_boundaries st [r1; r2] ->
     let st1 := (Button.read st r1).2 in
     Button.classified st1 r2 = Button.RELEASED /\
     Button.read st1 r2 =
       (Button.RELEASED, Button.mk (Button.now_set r2) false true)).
Proof.
  assert (Hocc : forall x n,
            x <> Button.RELEASED ->
            Button.occurrences x (replicate n Button.RELEASED) = 0%nat).
  { intros x n Hx. induction n as [|n IH]; [reflexivity|].
    simpl. rewrite IH. destruct x; simpl; congruence. }
  split; [|split; [|split]].
  - intros st hold rels Hw Hh Hlen Hr Hb.
    destruct hold as [|p1 [|p2 hold]]; simpl in Hlen; try lia.
    inversion Hh as [|? ? Hp1 Hh1]; subst.
    inversion Hh1 as [|? ? Hp2 Hh2]; subst.
    simpl in Hb. destruct Hb as (He1 & He2 & Hb).
    assert (Hout : (Button.reads st ((p1 :: p2 :: hold) ++ rels)).1 =
                   [Button.RELEASED; Button.PRESSED_CONTINUOUSLY] ++
                   replicate (length hold + length rels) Button.RELEASED).
    { simpl.
      assert (E1 : Button.read st p1 =
                   (Button.RELEASED, Button.mk (Button.now_set p1) true true)).
      { rewrite read_was_up, level_pressed by assumption. reflexivity. }
      rewrite E1 in *. simpl in He2, Hb |- *.
      assert (E2 : Button.read (Button.mk (Button.now_set p1) true true) p2 =
                   (Button.PRESSED_CONTINUOUSLY,
                    Button.mk (Button.now_set p2) true false)).
      { rewrite read_was_down, level_pressed by (simpl; auto). reflexivity. }
      rewrite E2 in *. simpl in Hb |- *.
      pose proof (fun H1 H2 => reads_reported_quiet hold _ rels H1 H2 Hh2 Hr Hb) as Hq.
      specialize (Hq eq_refl eq_refl).
      destruct (Button.reads _ (hold ++ rels)) as [os st']. simpl in *.
      rewrite Hq. reflexivity. }
    split.
    + rewrite Hout. simpl. do 3 f_equal. lia.
    + rewrite Hout. simpl. rewrite Hocc by discriminate. reflexivity.
  - intros st p rel rels Hw Hp Hrel Hr Hb.
    simpl in Hb. destruct Hb as (He1 & He2 & Hb).
    assert (Hout : (Button.reads st (p :: rel :: rels)).1 =
                   [Button.RELEASED; Button.PRESSED] ++
                   replicate (length rels) Button.RELEASED).
    { simpl.
      assert (E1 : Button.read st p =
                   (Button.RELEASED, Button.mk (Button.now_set p) true true)).
      { rewrite read_was_up, level_pressed by assumption. reflexivity. }
      rewrite E1 in *. simpl in He2, Hb |- *.
      assert (E2 : Button.read (Button.mk (Button.now_set p) true true) rel =
                   (Button.PRESSED, Button.mk (Button.now_set rel) false false)).
      { rewrite read_was_down, level_released by (simpl; auto). reflexivity. }
      rewrite E2 in *. simpl in Hb |- *.
      pose proof (fun H1 => reads_released_quiet rels _ H1 Hr Hb) as Hq.
      specialize (Hq eq_refl).
      destruct (Button.reads _ rels) as [os st']. simpl in *.
      rewrite Hq. reflexivity. }
    split; [exact Hout|].
    rewrite Hout. simpl. rewrite Hocc by discriminate. reflexivity.
  - exact read_not_elapsed.
  - intros st r1 r2 H1 H2 Hb st1.
    simpl in Hb. destruct Hb as (He1 & He2 & _).
    assert (Hw1 : Button.wasPressed st1 = false).
    { unfold st1. destruct (Button.wasPressed st) eqn:Hw.
      - rewrite read_was_down by assumption. simpl.
        apply level_released. assumption.
      - rewrite read_was_up by assumption. simpl.
        apply level_released. assumption. }
    split.
    + unfold Button.classified. rewrite Hw1. reflexivity.
    + rewrite read_was_up by assumption.
      rewrite level_released by assumption. reflexivity.
Qed.

Lemma Button_read_windows_witness :
  let s (lv t : Z) := Button.mk_sample lv t t in
  (Button.reads (Button.init 0) [s 0 201; s 0 402; s 0 603; s 1 804]).1 =
    [Button.RELEASED; Button.PRESSED_CONTINUOUSLY; Button.RELEASED; Button.RELEASED] /\
  (Button.reads (Button.init 0) [s 0 201; s 1 402; s 1 603]).1 =
    [Button.RELEASED; Button.PRESSED; Button.RELEASED] /\
  Button.read (Button.init 0) (s 0 200) = (Button.RELEASED, Button.init 0) /\
  Button.read (Button.read (Button.mk 0 true true) (s 1 201)).2 (s 1 402) =
    (Button.RELEASED, Button.mk 402 false true).
Proof.
  intros s.
  destruct Button_read_windows as (Ha & Hb & Hc & Hd).
  assert (Hp : forall t, Button.pressed (s 0 t)) by (intros t; reflexivity).
  assert (Hr : forall t, Button.released (s 1 t)) by (intros t; discriminate).
  split; [|split; [|split]].
  - refine (proj1 (Ha (Button.init 0) [s 0 201; s 0 402; s 0 603] [s 1 804]
                      eq_refl _ _ _ _)).
    + repeat constructor.
    + simpl. lia.
    + repeat constructor. apply Hr.
    + vm_compute. repeat split.
  - refine (proj1 (Hb (Button.init 0) (s 0 201) (s 1 402) [s 1 603]
                      eq_refl (Hp _) (Hr _) _ _)).
    + repeat constructor. apply Hr.
    + vm_compute. repeat split.
  - apply Hc. reflexivity.
  - refine (proj2 (Hd (Button.mk 0 true true) (s 1 201) (s 1 402) (Hr _) (Hr _) _)).
    vm_compute. repeat split.
Defined.

(** ** The mode machine *)

Lemma cmdSetLeds_mode f data G :
  Main.mode (Main.cmdSetLeds f data G).2 = Main.BT \/
  (Main.cmdSetLeds f data G).2 = G.
Proof.
  unfold Main.cmdSetLeds.
  repeat match goal with |- context [if ?c then _ else _] => destruct c end;
    simpl; auto.
Qed.

Lemma cmdSetLedsAll_mode f data G :
  Main.mode (Main.cmdSetLedsAll f data G).2 = Main.BT \/
  (Main.cmdSetLedsAll f data G).2 = G.
Proof.
  unfold Main.cmdSetLedsAll.
  repeat match goal with |- context [if ?c then _ else _] => destruct c end;
    simpl; auto.
Qed.

Lemma dispatch_mode f data G :
  Main.mode (Main.dispatch f data G).2 = Main.BT \/
  (Main.dispatch f data G).2 = G.
Proof.
  unfold Main.dispatch. destruct (Main.cmd f).
  - destruct (Main.cmd (Main.cmdNone f (uint8 data))); simpl; auto.
  - simpl; auto.
  - apply cmdSetLeds_mode.
  - apply cmdSetLedsAll_mode.
Qed.

Lemma drain_mode_BT input : forall f G,
  Main.mode G = Main.BT -> Main.mode (Main.drain input f G).2 = Main.BT.
Proof.
  induction input as [|data rest IH]; intros f G HG; simpl; [exact HG|].
  destruct (data <? 0); [exact HG|].
  unfold Main.iteration.
  destruct (Main.dispatch f data G) as [f' G'] eqn:E.
  apply IH. destruct (dispatch_mode f data G) as [H|H];
    rewrite E in H; simpl in H; congruence.
Qed.




(** ** The LED driver *)

Lemma byte_testbit_high z n : is_byte z -> 8 <= n -> Z.testbit z n = false.
Proof.
  intros Hz Hn. rewrite <- (uint8_id z Hz). unfold uint8.
  rewrite Z.testbit_mod_pow2 by lia.
  destruct (Z.ltb_spec n 8); [lia|reflexivity].
Qed.

Lemma unpack_Color r g b :
  is_byte r -> is_byte g -> is_byte b ->
  NeoPixel.unpack (NeoPixel.Color r g b) = (r, g, b).
Proof.
  intros Hr Hg Hb. unfold NeoPixel.unpack, NeoPixel.Color, uint8.
  repeat f_equal; apply Z.bits_inj'; intros n Hn;
    rewrite Z.testbit_mod_pow2 by lia;
    rewrite ?Z.shiftr_spec by lia;
    rewrite !Z.lor_spec, !Z.shiftl_spec by lia;
    destruct (Z.ltb_spec n 8); simpl.
  - rewrite (byte_testbit_high g) by (auto; lia).
    rewrite (byte_testbit_high b) by (auto; lia).
    rewrite !orb_false_r. f_equal. lia.
  - symmetry. apply byte_testbit_high; auto.
  - rewrite (Z.testbit_neg_r r) by lia.
    rewrite (byte_testbit_high b) by (auto; lia).
    rewrite orb_false_r. simpl. f_equal. lia.
  - symmetry. apply byte_testbit_high; auto.
  - rewrite (Z.testbit_neg_r r) by lia.
    rewrite (Z.testbit_neg_r g) by lia. reflexivity.
  - symmetry. apply byte_testbit_high; auto.
Qed.

Lemma show_pixels L : NeoPixel.pixels (NeoPixel.show L) = NeoPixel.pixels L.
Proof. reflexivity. Qed.

Lemma numLEDs_show L : NeoPixel.numLEDs (NeoPixel.show L) = NeoPixel.numLEDs L.
Proof. reflexivity. Qed.

Lemma numLEDs_setPixelColor L n r g b :
  NeoPixel.numLEDs (NeoPixel.setPixelColor L n r g b) = NeoPixel.numLEDs L.
Proof.
  unfold NeoPixel.setPixelColor, NeoPixel.numLEDs.
  destruct (n <? _); simpl; [rewrite length_insert|]; reflexivity.
Qed.

Lemma wf_setPixelColor L n r g b :
  is_byte r -> is_byte g -> is_byte b ->
  NeoPixel.wf L -> NeoPixel.wf (NeoPixel.setPixelColor L n r g b).
Proof.
  intros Hr Hg Hb HL. unfold NeoPixel.setPixelColor, NeoPixel.wf in *.
  destruct (n <? _); simpl; [|exact HL].
  apply Forall_insert; [exact HL|]. split; [|split]; assumption.
Qed.

(** A write with an index at or beyond [numLEDs] changes nothing. *)
Lemma setPixelColor_out_of_range L n r g b :
  NeoPixel.numLEDs L <= n -> NeoPixel.setPixelColor L n r g b = L.
Proof.
  intros H. unfold NeoPixel.setPixelColor.
  destruct (Z.ltb_spec n (NeoPixel.numLEDs L)); [lia|reflexivity].
Qed.

Lemma pixels_setPixelColor L n r g b :
  0 <= n ->
  NeoPixel.pixels (NeoPixel.setPixelColor L n r g b) =
  <[Z.to_nat n := (r, g, b)]> (NeoPixel.pixels L).
Proof.
  intros Hn. unfold NeoPixel.setPixelColor, NeoPixel.numLEDs.
  destruct (Z.ltb_spec n (Z.of_nat (length (NeoPixel.pixels L)))); simpl.
  - reflexivity.
  - symmetry. apply list_insert_ge. lia.
Qed.

(** [fill] writes the unpacked color into every pixel. *)
Lemma fill_prefix L c (k : nat) :
  (k <= length (NeoPixel.pixels L))%nat ->
  foldl (fun L' i => NeoPixel.setPixelColor32 L' i c) L (seqZ 0 (Z.of_nat k)) =
  NeoPixel.mk (replicate k (NeoPixel.unpack c) ++ drop k (NeoPixel.pixels L))
              (NeoPixel.strip L).
Proof.
  induction k as [|k IH]; intros Hk.
  - simpl. rewrite drop_0. destruct L; reflexivity.
  - rewrite seqZ_S, foldl_app, IH by lia. cbn [foldl]. rewrite Z.add_0_l.
    unfold NeoPixel.setPixelColor32, NeoPixel.numLEDs.
    cbn [NeoPixel.pixels NeoPixel.strip].
    rewrite length_app, length_replicate, length_drop.
    destruct (Z.ltb_spec (Z.of_nat k)
                (Z.of_nat (k + (length (NeoPixel.pixels L) - k)))); [|lia].
    f_equal. rewrite Nat2Z.id.
    rewrite insert_app_r_alt by (rewrite length_replicate; lia).
    rewrite length_replicate, Nat.sub_diag.
    destruct (drop k (NeoPixel.pixels L)) as [|p rest] eqn:E.
    + apply (f_equal length) in E. rewrite length_drop in E. simpl in E. lia.
    + change (<[0%nat := NeoPixel.unpack c]> (p :: rest))
        with (NeoPixel.unpack c :: rest).
      assert (Hd : drop (S k) (NeoPixel.pixels L) = rest).
      { replace (S k) with (k + 1)%nat by lia.
        rewrite <- drop_drop, E. reflexivity. }
      rewrite Hd. rewrite replicate_S_end, <- app_assoc. reflexivity.
Qed.

Lemma fill_spec L c :
  NeoPixel.fill L c =
  NeoPixel.mk (replicate (length (NeoPixel.pixels L)) (NeoPixel.unpack c))
              (NeoPixel.strip L).
Proof.
  unfold NeoPixel.fill, NeoPixel.numLEDs. rewrite fill_prefix by lia.
  rewrite drop_all, app_nil_r. reflexivity.
Qed.

(** ** The snapshot taken by [cmdGetLeds] *)

Lemma quadruples_from_app l1 : forall i l2,
  Main.quadruples_from i (l1 ++ l2) =
  Main.quadruples_from i l1 ++ Main.quadruples_from (i + Z.of_nat (length l1)) l2.
Proof.
  induction l1 as [|p l1 IH]; intros i l2.
  - simpl. rewrite Z.add_0_r. reflexivity.
  - cbn [Main.quadruples_from app length]. rewrite IH.
    replace (i + 1 + Z.of_nat (length l1)) with (i + Z.of_nat (S (length l1)))
      by lia.
    reflexivity.
Qed.

Lemma length_quadruples_from px : forall i,
  length (Main.quadruples_from i px) = (4 * length px)%nat.
Proof. induction px as [|p px IH]; intros i; simpl; [|rewrite IH]; lia. Qed.

(** Four consecutive stores behind a prefix of length [4k]. *)
Lemma insert4_app (A B : list Z) (k x0 x1 x2 x3 a0 a1 a2 a3 : Z) :
  0 <= k -> length A = Z.to_nat (k * 4) ->
  <[Z.to_nat (k * 4 + 3) := x3]>
    (<[Z.to_nat (k * 4 + 2) := x2]>
       (<[Z.to_nat (k * 4 + 1) := x1]>
          (<[Z.to_nat (k * 4) := x0]> (A ++ a0 :: a1 :: a2 :: a3 :: B)))) =
  A ++ x0 :: x1 :: x2 :: x3 :: B.
Proof.
  intros Hk HA.
  rewrite (insert_app_r_alt A _ (Z.to_nat (k * 4))) by lia.
  replace (Z.to_nat (k * 4) - length A)%nat with 0%nat by lia.
  rewrite (insert_app_r_alt A _ (Z.to_nat (k * 4 + 1))) by lia.
  replace (Z.to_nat (k * 4 + 1) - length A)%nat with 1%nat by lia.
  rewrite (insert_app_r_alt A _ (Z.to_nat (k * 4 + 2))) by lia.
  replace (Z.to_nat (k * 4 + 2) - length A)%nat with 2%nat by lia.
  rewrite (insert_app_r_alt A _ (Z.to_nat (k * 4 + 3))) by lia.
  replace (Z.to_nat (k * 4 + 3) - length A)%nat with 3%nat by lia.
  reflexivity.
Qed.

Lemma getPixelColor_unpack L (k : nat) p :
  NeoPixel.wf L -> NeoPixel.pixels L !! k = Some p ->
  NeoPixel.unpack (NeoPixel.getPixelColor L (Z.of_nat k)) = p.
Proof.
  intros HL Hp. unfold NeoPixel.getPixelColor, NeoPixel.numLEDs.
  pose proof (lookup_lt_Some _ _ _ Hp) as Hlt.
  destruct (Z.geb_spec (Z.of_nat k) (Z.of_nat (length (NeoPixel.pixels L))));
    [lia|].
  rewrite Nat2Z.id, (list_lookup_total_correct _ _ _ Hp).
  unfold NeoPixel.wf in HL. rewrite Forall_lookup in HL.
  destruct (HL _ _ Hp) as (Hr & Hg & Hb). destruct p as [[r g] b].
  apply unpack_Color; assumption.
Qed.

Lemma snapshot_prefix L d (k : nat) :
  NeoPixel.wf L ->
  length d = (4 * length (NeoPixel.pixels L))%nat ->
  (k <= length (NeoPixel.pixels L))%nat ->
  foldl (Main.snapshot_led L) d (seqZ 0 (Z.of_nat k)) =
  Main.quadruples_from 0 (take k (NeoPixel.pixels L)) ++ drop (4 * k) d.
Proof.
  intros HL Hd. induction k as [|k IH]; intros Hk.
  - simpl. rewrite drop_0. reflexivity.
  - rewrite seqZ_S, foldl_app, IH by lia. cbn [foldl]. rewrite Z.add_0_l.
    destruct (NeoPixel.pixels L !! k) as [p|] eqn:Hp;
      [|apply lookup_ge_None in Hp; lia].
    rewrite (take_S_r _ _ _ Hp), quadruples_from_app.
    rewrite length_take_le, Z.add_0_l by lia.
    pose proof (getPixelColor_unpack L k p HL Hp) as Hu.
    unfold Main.snapshot_led. unfold NeoPixel.unpack in Hu.
    destruct p as [[r g] b]. injection Hu as -> -> ->.
    set (c := NeoPixel.getPixelColor L (Z.of_nat k)).
    destruct (drop (4 * k) d) as [|a0 [|a1 [|a2 [|a3 B]]]] eqn:E;
      try (apply (f_equal length) in E; rewrite length_drop in E;
           simpl in E; lia).
    assert (HB : drop (4 * S k) d = B).
    { replace (4 * S k)%nat with (4 * k + 4)%nat by lia.
      rewrite <- drop_drop, E. reflexivity. }
    rewrite HB, insert4_app.
    + rewrite <- app_assoc. reflexivity.
    + lia.
    + rewrite length_quadruples_from, length_take_le by lia. lia.
Qed.

Lemma snapshot_spec L d :
  NeoPixel.wf L ->
  NeoPixel.numLEDs L = Main.LED_COUNT ->
  length d = 256%nat ->
  Main.snapshot L d = Main.quadruples (NeoPixel.pixels L).
Proof.
  intros HL Hn Hd. unfold Main.snapshot, NeoPixel.numLEDs, Main.LED_COUNT in *.
  assert (Hlen : length (NeoPixel.pixels L) = 64%nat) by lia.
  change 64 with (Z.of_nat 64). rewrite snapshot_prefix by (auto; lia).
  rewrite <- Hlen at 1. rewrite firstn_all.
  rewrite drop_ge by lia. rewrite app_nil_r. reflexivity.
Qed.

(** ** SET_LEDS frames *)

Lemma accepting_true st :
  Main.accepting st = true -> st = Main.INVALID_DATA_LENGTH \/ st = Main.OK.
Proof. destruct st; simpl; intros; auto; discriminate. Qed.

(** A payload byte that does not complete a group is only stored. *)
Lemma iteration_SET_partial c st d data G :
  0 <= c < Main.LED_COUNT * 4 -> Main.accepting st = true ->
  Z.rem c 4 <> 3 -> is_byte data ->
  Main.iteration (Main.mk_frame c Main.SET_LEDS st d) data G =
  (Main.mk_frame (c + 1) Main.SET_LEDS st (<[Z.to_nat c := data]> d), G).
Proof.
  unfold Main.LED_COUNT. intros Hc Hst Hrem Hdata.
  unfold Main.iteration, Main.dispatch, Main.cmdSetLeds. simpl.
  rewrite (uint8_id _ Hdata), Hst.
  destruct (Z.ltb_spec c 0); [lia|].
  destruct (Z.ltb_spec c (Main.LED_COUNT * 4)); [|unfold Main.LED_COUNT in *; lia].
  simpl. destruct (Z.eqb_spec (Z.rem c 4) 3); [contradiction|].
  unfold Main.set_count, Main.set_ledData. simpl.
  rewrite int16_id by lia. reflexivity.
Qed.

(** The fourth byte of group number [k] writes the group to the driver,
    whatever LED index the group names. *)
Lemma iteration_SET_complete k st d data G :
  0 <= k < Main.LED_COUNT -> Main.accepting st = true -> is_byte data ->
  let d' := <[Z.to_nat (k * 4 + 3) := data]> d in
  Main.iteration (Main.mk_frame (k * 4 + 3) Main.SET_LEDS st d) data G =
  (Main.mk_frame (k * 4 + 4) Main.SET_LEDS Main.OK d',
   Main.write_group G
     (d' !!! Z.to_nat (k * 4), d' !!! Z.to_nat (k * 4 + 1),
      d' !!! Z.to_nat (k * 4 + 2), d' !!! Z.to_nat (k * 4 + 3))).
Proof.
  intros Hk Hst Hdata d'. unfold Main.LED_COUNT in Hk.
  unfold Main.iteration, Main.dispatch, Main.cmdSetLeds. simpl.
  rewrite (uint8_id _ Hdata), Hst.
  destruct (Z.ltb_spec (k * 4 + 3) 0); [lia|].
  destruct (Z.ltb_spec (k * 4 + 3) (Main.LED_COUNT * 4));
    [|unfold Main.LED_COUNT in *; lia].
  simpl.
  assert (Hrem : Z.rem (k * 4 + 3) 4 = 3) by (Z.quot_rem_to_equations; lia).
  assert (Hquot : Z.quot (k * 4 + 3) 4 = k) by (Z.quot_rem_to_equations; lia).
  rewrite Hrem, Hquot. simpl.
  destruct (Z.geb_spec k Main.LED_COUNT); [unfold Main.LED_COUNT in *; lia|].
  unfold Main.set_count, Main.set_state, Main.set_ledData, Main.write_group.
  simpl. rewrite int16_id by lia.
  replace (k * 4 + 3 + 1) with (k * 4 + 4) by lia. reflexivity.
Qed.

Lemma drain_cons data rest f G :
  0 <= data ->
  Main.drain (data :: rest) f G =
  Main.drain rest (Main.iteration f data G).1 (Main.iteration f data G).2.
Proof.
  intros H. simpl. destruct (Z.ltb_spec data 0); [lia|].
  destruct (Main.iteration f data G); reflexivity.
Qed.

(** One complete group, starting at [count = 4k]. *)
Lemma drain_group k st d q rest G :
  0 <= k < Main.LED_COUNT -> Main.accepting st = true ->
  length d = 256%nat -> Main.group_bytes q ->
  exists d', length d' = 256%nat /\
    Main.drain (Main.encode_groups [q] ++ rest)
               (Main.mk_frame (k * 4) Main.SET_LEDS st d) G =
    Main.drain rest (Main.mk_frame ((k + 1) * 4) Main.SET_LEDS Main.OK d')
               (Main.write_group G q).
Proof.
  unfold Main.LED_COUNT. intros Hk Hst Hd Hq.
  destruct q as [[[n r] g] b]. destruct Hq as (Hn & Hr & Hg & Hb).
  simpl in Hn, Hr, Hg, Hb. unfold is_byte in *.
  set (d1 := <[Z.to_nat (k * 4) := n]> d).
  set (d2 := <[Z.to_nat (k * 4 + 1) := r]> d1).
  set (d3 := <[Z.to_nat (k * 4 + 2) := g]> d2).
  set (d4 := <[Z.to_nat (k * 4 + 3) := b]> d3).
  exists d4. split.
  { unfold d4, d3, d2, d1. rewrite !length_insert. exact Hd. }
  cbn [Main.encode_groups flat_map app fst snd].
  rewrite drain_cons, iteration_SET_partial
    by (unfold Main.LED_COUNT, is_byte; try (Z.quot_rem_to_equations; lia); auto; lia).
  cbn [fst snd]. fold d1.
  rewrite drain_cons, iteration_SET_partial
    by (unfold Main.LED_COUNT, is_byte; try (Z.quot_rem_to_equations; lia); auto; lia).
  cbn [fst snd]. fold d2.
  replace (k * 4 + 1 + 1) with (k * 4 + 2) by lia.
  rewrite drain_cons, iteration_SET_partial
    by (unfold Main.LED_COUNT, is_byte; try (Z.quot_rem_to_equations; lia); auto; lia).
  cbn [fst snd]. fold d3.
  replace (k * 4 + 2 + 1) with (k * 4 + 3) by lia.
  rewrite drain_cons, iteration_SET_complete
    by (unfold Main.LED_COUNT, is_byte; auto; lia).
  cbn [fst snd]. fold d4.
  replace (k * 4 + 4) with ((k + 1) * 4) by lia.
  assert (H0 : d4 !!! Z.to_nat (k * 4) = n).
  { unfold d4, d3, d2. rewrite !list_lookup_total_insert_ne by lia.
    apply list_lookup_total_insert_eq. lia. }
  assert (H1 : d4 !!! Z.to_nat (k * 4 + 1) = r).
  { unfold d4, d3. rewrite !list_lookup_total_insert_ne by lia.
    apply list_lookup_total_insert_eq. unfold d1. rewrite length_insert. lia. }
  assert (H2 : d4 !!! Z.to_nat (k * 4 + 2) = g).
  { unfold d4. rewrite !list_lookup_total_insert_ne by lia.
    apply list_lookup_total_insert_eq. unfold d2, d1. rewrite !length_insert. lia. }
  assert (H3 : d4 !!! Z.to_nat (k * 4 + 3) = b).
  { apply list_lookup_total_insert_eq. unfold d3, d2, d1.
    rewrite !length_insert. lia. }
  rewrite H0, H1, H2, H3. reflexivity.
Qed.

(** Any number of complete groups that fit the 256-byte buffer. *)
Lemma drain_groups gs : forall k st d rest G,
  0 <= k -> k + Z.of_nat (length gs) <= Main.LED_COUNT ->
  Main.accepting st = true -> length d = 256%nat ->
  Forall Main.group_bytes gs ->
  exists d', length d' = 256%nat /\
    Main.drain (Main.encode_groups gs ++ rest)
               (Main.mk_frame (k * 4) Main.SET_LEDS st d) G =
    Main.drain rest
      (Main.mk_frame ((k + Z.of_nat (length gs)) * 4) Main.SET_LEDS
         (match gs with [] => st | _ => Main.OK end) d')
      (foldl Main.write_group G gs).
Proof.
  induction gs as [|q gs IH]; intros k st d rest G Hk Hlen Hst Hd Hgs.
  - exists d. split; [exact Hd|]. simpl. rewrite Z.add_0_r. reflexivity.
  - inversion Hgs as [|? ? Hq Hgs']; subst.
    cbn [length] in Hlen. rewrite Nat2Z.inj_succ in Hlen.
    destruct (drain_group k st d q (Main.encode_groups gs ++ rest) G)
      as (d1 & Hd1 & E1); auto; [lia|].
    destruct (IH (k + 1) Main.OK d1 rest (Main.write_group G q))
      as (d2 & Hd2 & E2); auto; [lia..|].
    exists d2. split; [exact Hd2|].
    change (Main.encode_groups (q :: gs))
      with (Main.encode_groups [q] ++ Main.encode_groups gs).
    rewrite <- app_assoc, E1, E2. cbn [foldl length].
    rewrite Nat2Z.inj_succ.
    replace (k + 1 + Z.of_nat (length gs)) with (k + Z.succ (Z.of_nat (length gs)))
      by lia.
    destruct gs; reflexivity.
Qed.

(** A SET_LEDS frame of whole groups is answered [0x02, 0x00] and writes
    every group in turn. *)
Lemma loop_serial_set_leds gs stack G :
  (1 <= length gs <= 64)%nat -> length stack = 256%nat ->
  Forall Main.group_bytes gs ->
  Main.loop_serial (Main.set_leds_frame gs) stack G =
  (foldl Main.write_group G gs, [0x02; 0x00]).
Proof.
  intros Hlen Hstack Hgs. unfold Main.loop_serial, Main.set_leds_frame.
  rewrite drain_cons by lia.
  change (Main.iteration (Main.fresh stack) 2 G)
    with (Main.mk_frame 0 Main.SET_LEDS Main.INVALID_DATA_LENGTH stack, G).
  cbn [fst snd].
  destruct (drain_groups gs 0 Main.INVALID_DATA_LENGTH stack [] G)
    as (d' & Hd' & E); auto; try (unfold Main.LED_COUNT; lia).
  rewrite app_nil_r in E. change (0 * 4) with 0 in E. rewrite E.
  destruct gs; [simpl in Hlen; lia|]. reflexivity.
Qed.

(** ** How the status of a frame can change *)

Lemma cmdGetLeds_state f data G :
  let s' := Main.state (Main.cmdGetLeds f data G) in
  s' = Main.state f \/ (s' = Main.OK /\ Main.accepting (Main.state f) = true) \/
  (s' = Main.INVALID_STATE /\ Main.count f < 0).
Proof.
  unfold Main.cmdGetLeds. destruct (Z.ltb_spec (Main.count f) 0); simpl; auto.
  destruct (Main.count f =? 0); simpl; auto.
  destruct (Main.accepting (Main.state f)); simpl; auto.
Qed.

Lemma cmdSetLeds_state f data G :
  let s' := Main.state (Main.cmdSetLeds f data G).1 in
  s' = Main.state f \/ (s' = Main.OK /\ Main.accepting (Main.state f) = true) \/
  (s' = Main.INVALID_STATE /\ Main.count f < 0).
Proof.
  unfold Main.cmdSetLeds. destruct (Z.ltb_spec (Main.count f) 0); simpl; auto.
  destruct (Z.ltb_spec (Main.count f) (Main.LED_COUNT * 4)); simpl; auto.
  destruct (Main.accepting (Main.state f)); simpl; auto.
  destruct (Z.rem (Main.count f) 4 =? 3); simpl; auto.
  destruct (Z.geb_spec (Z.quot (Main.count f) 4) Main.LED_COUNT); simpl; auto.
  exfalso. unfold Main.LED_COUNT in *. Z.quot_rem_to_equations. lia.
Qed.

Lemma cmdSetLedsAll_state f data G :
  let s' := Main.state (Main.cmdSetLedsAll f data G).1 in
  s' = Main.state f \/ (s' = Main.OK /\ Main.accepting (Main.state f) = true) \/
  (s' = Main.INVALID_STATE /\ Main.count f < 0).
Proof.
  unfold Main.cmdSetLedsAll. destruct (Z.ltb_spec (Main.count f) 0); simpl; auto.
  destruct (Main.count f <? 3); simpl; auto.
  destruct (Main.accepting (Main.state f)); simpl; auto.
Qed.

Lemma cmdNone_cases f data :
  (Main.cmd_of data <> Main.NONE /\
   Main.cmdNone f data = Main.set_cmd f (Main.cmd_of data)) \/
  (Main.cmd_of data = Main.NONE /\
   Main.cmdNone f data = Main.set_state f Main.INVALID_COMMAND).
Proof.
  unfold Main.cmdNone, Main.data_is, Main.cmd_of. cbn [Main.cmd_byte].
  rewrite (Z.eqb_sym 1 data), (Z.eqb_sym 2 data), (Z.eqb_sym 3 data).
  destruct (data =? 1); [left; split; [discriminate|reflexivity]|].
  destruct (data =? 2); [left; split; [discriminate|reflexivity]|].
  destruct (data =? 3); [left; split; [discriminate|reflexivity]|].
  right. split; reflexivity.
Qed.

Lemma dispatch_state f data G :
  let s' := Main.state (Main.dispatch f data G).1 in
  s' = Main.state f \/
  (s' = Main.OK /\ Main.accepting (Main.state f) = true) \/
  (s' = Main.INVALID_COMMAND /\ Main.cmd f = Main.NONE) \/
  (s' = Main.INVALID_STATE /\ Main.cmd f <> Main.NONE /\ Main.count f < 0).
Proof.
  unfold Main.dispatch. destruct (Main.cmd f) eqn:Hc.
  - destruct (cmdNone_cases f (uint8 data)) as [[Hne ->]|[He ->]].
    + simpl. destruct (Main.cmd_of (uint8 data)); simpl; auto.
      destruct (cmdGetLeds_state
                  (Main.set_count (Main.set_cmd f Main.GET_LEDS) 0) (uint8 data) G)
        as [H|[H|[_ H]]]; simpl in H; auto; lia.
    + simpl. rewrite Hc. simpl. auto.
  - destruct (cmdGetLeds_state f (uint8 data) G) as [H|[H|[H ?]]]; simpl; auto.
    right; right; right. repeat split; auto; discriminate.
  - destruct (cmdSetLeds_state f (uint8 data) G) as [H|[H|[H ?]]]; simpl; auto.
    right; right; right. repeat split; auto; discriminate.
  - destruct (cmdSetLedsAll_state f (uint8 data) G) as [H|[H|[H ?]]]; simpl; auto.
    right; right; right. repeat split; auto; discriminate.
Qed.

Lemma iteration_state f data G :
  Main.state (Main.iteration f data G).1 = Main.state (Main.dispatch f data G).1.
Proof. unfold Main.iteration. destruct (Main.dispatch f data G); reflexivity. Qed.

(** No input makes the drain loop end with status LED_OUT_OF_RANGE. *)
Lemma drain_never_out_of_range input : forall f G f' G',
  Main.state f <> Main.LED_OUT_OF_RANGE ->
  Main.drain input f G = (Some f', G') ->
  Main.state f' <> Main.LED_OUT_OF_RANGE.
Proof.
  induction input as [|data rest IH]; intros f G f' G' Hf E; simpl in E.
  - congruence.
  - destruct (data <? 0); [discriminate|].
    destruct (Main.iteration f data G) as [f1 G1] eqn:E1.
    apply (IH _ _ _ _) in E; [exact E|].
    pose proof (iteration_state f data G) as Hs. rewrite E1 in Hs. simpl in Hs.
    rewrite Hs.
    destruct (dispatch_state f data G) as [H|[[H _]|[[H _]|[H _]]]];
      simpl in H; rewrite H; auto; discriminate.
Qed.

(** ** The pixel buffer after SET_LEDS frames *)



Lemma pixels_write_groups gs : forall G,
  Forall Main.group_bytes gs ->
  NeoPixel.pixels (Main.leds (foldl Main.write_group G gs)) =
  foldl Main.store_group (NeoPixel.pixels (Main.leds G)) gs.
Proof.
  induction gs as [|q gs IH]; intros G Hgs; simpl; [reflexivity|].
  inversion Hgs as [|? ? Hq Hgs']; subst. rewrite IH by assumption.
  f_equal. unfold Main.write_group. cbn [Main.leds]. rewrite show_pixels.
  apply pixels_setPixelColor. destruct Hq as [[Hn _] _]. exact Hn.
Qed.

Lemma length_store_groups gs : forall px,
  length (foldl Main.store_group px gs) = length px.
Proof.
  induction gs as [|q gs IH]; intros px; simpl; [reflexivity|].
  rewrite IH. apply length_insert.
Qed.


(** ** GET_LEDS frames *)

Lemma quadruples_lookup px : forall i (j : nat) p,
  px !! j = Some p ->
  take 4 (drop (4 * j) (Main.quadruples_from i px)) =
  [i + Z.of_nat j; p.1.1; p.1.2; p.2].
Proof.
  induction px as [|p0 px IH]; intros i j p Hp; [discriminate|].
  destruct j as [|j].
  - injection Hp as ->. simpl. rewrite Z.add_0_r.
    destruct px; reflexivity.
  - replace (4 * S j)%nat with (S (S (S (S (4 * j))))) by lia.
    cbn [Main.quadruples_from drop]. rewrite (IH _ _ p) by exact Hp.
    f_equal. lia.
Qed.

Lemma iteration_GET_first stack G :
  Main.iteration (Main.fresh stack) 0x01 G =
  (Main.mk_frame 1 Main.GET_LEDS Main.OK (Main.snapshot (Main.leds G) stack), G).
Proof. reflexivity. Qed.

(** The frame [0x01] is answered with tag, status OK and one quadruple
    per LED. *)
Lemma loop_serial_get_leds stack G :
  Main.wf_globals G -> length stack = 256%nat ->
  Main.loop_serial [0x01] stack G =
  (G, [0x01; 0x00] ++ Main.quadruples (NeoPixel.pixels (Main.leds G))).
Proof.
  intros [HN HW] Hstack. unfold Main.loop_serial.
  rewrite drain_cons by lia. rewrite iteration_GET_first.
  rewrite snapshot_spec by assumption.
  cbn [fst snd Main.drain Main.respond Main.state Main.cmd Main.ledData
       Main.btRespond Main.cmd_byte Main.state_byte].
  unfold Main.btRespond. rewrite take_ge; [reflexivity|].
  unfold Main.quadruples. rewrite length_quadruples_from.
  unfold NeoPixel.numLEDs, Main.LED_COUNT in *. lia.
Qed.


Lemma bytes_replicate n z : is_byte z -> Forall is_byte (replicate n z).
Proof. intros H. apply Forall_replicate. exact H. Qed.

Lemma wf_new n : NeoPixel.wf (NeoPixel.new n).
Proof.
  unfold NeoPixel.wf, NeoPixel.new. simpl. apply Forall_replicate.
  unfold NeoPixel.wf_rgb, is_byte. simpl. lia.
Qed.

Lemma wf_globals_new m : Main.wf_globals (Main.mk_globals (NeoPixel.new 64) m).
Proof. split; [reflexivity|apply wf_new]. Qed.

(** C1 (the code at the failing inputs): no input ever makes a frame end
    with status LED_OUT_OF_RANGE.  The frame
    [0x02, 5,255,0,0, 99,0,0,0] on a 64-LED buffer is answered
    [0x02, 0x00] (status OK); LED 5 keeps (255,0,0).  In the frame
    [0x02, 99,0,0,0, 5,255,0,0] the group after the out-of-range one is
    still written to LED 5. *)
Theorem SET_LEDS_out_of_range_unreported :
  (forall input stack G f G',
     Main.drain input (Main.fresh stack) G = (Some f, G') ->
     Main.state f <> Main.LED_OUT_OF_RANGE) /\
  (forall stack G,
     length stack = 256%nat -> NeoPixel.numLEDs (Main.leds G) = Main.LED_COUNT ->
     let res := Main.loop_serial [0x02; 5; 255; 0; 0; 99; 0; 0; 0] stack G in
     res.2 = [0x02; 0x00] /\ Main.mode res.1 = Main.BT /\
     NeoPixel.pixels (Main.leds res.1) =
       <[5%nat := (255, 0, 0)]> (NeoPixel.pixels (Main.leds G))) /\
  (forall stack G,
     length stack = 256%nat -> NeoPixel.numLEDs (Main.leds G) = Main.LED_COUNT ->
     let res := Main.loop_serial [0x02; 99; 0; 0; 0; 5; 255; 0; 0] stack G in
     res.2 = [0x02; 0x00] /\ Main.mode res.1 = Main.BT /\
     NeoPixel.pixels (Main.leds res.1) =
       <[5%nat := (255, 0, 0)]> (NeoPixel.pixels (Main.leds G))).
Proof.
  assert (Hbytes : forall n r g b : Z,
            0 <= n < 256 -> 0 <= r < 256 -> 0 <= g < 256 -> 0 <= b < 256 ->
            Main.group_bytes (n, r, g, b)).
  { intros. repeat split; simpl; lia. }
  split; [|split].
  - intros input stack G f G' E.
    apply (drain_never_out_of_range input (Main.fresh stack) G f G');
      [discriminate|exact E].
  - intros stack G Hstack HN res. unfold res.
    change [0x02; 5; 255; 0; 0; 99; 0; 0; 0]
      with (Main.set_leds_frame [(5, 255, 0, 0); (99, 0, 0, 0)]).
    rewrite loop_serial_set_leds
      by (simpl; auto; repeat constructor; try apply Hbytes; lia).
    split; [reflexivity|split; [reflexivity|]].
    cbn [fst]. rewrite pixels_write_groups by (repeat constructor; apply Hbytes; lia).
    cbn [foldl]. unfold Main.store_group, Main.group_index, Main.group_color.
    cbn [fst snd]. change (Z.to_nat 99) with 99%nat. change (Z.to_nat 5) with 5%nat.
    unfold NeoPixel.numLEDs, Main.LED_COUNT in HN.
    rewrite (list_insert_ge _ 99) by (rewrite length_insert; lia). reflexivity.
  - intros stack G Hstack HN res. unfold res.
    change [0x02; 99; 0; 0; 0; 5; 255; 0; 0]
      with (Main.set_leds_frame [(99, 0, 0, 0); (5, 255, 0, 0)]).
    rewrite loop_serial_set_leds
      by (simpl; auto; repeat constructor; try apply Hbytes; lia).
    split; [reflexivity|split; [reflexivity|]].
    cbn [fst]. rewrite pixels_write_groups by (repeat constructor; apply Hbytes; lia).
    cbn [foldl]. unfold Main.store_group, Main.group_index, Main.group_color.
    cbn [fst snd]. change (Z.to_nat 99) with 99%nat. change (Z.to_nat 5) with 5%nat.
    unfold NeoPixel.numLEDs, Main.LED_COUNT in HN.
    rewrite (list_insert_ge _ 99) by lia. reflexivity.
Qed.

Lemma SET_LEDS_out_of_range_unreported_witness :
  let G := Main.mk_globals (NeoPixel.new 64) Main.RANDOM in
  let z := replicate 256 0 in
  let res := Main.loop_serial [0x02; 5; 255; 0; 0; 99; 0; 0; 0] z G in
  let res' := Main.loop_serial [0x02; 99; 0; 0; 0; 5; 255; 0; 0] z G in
  (exists f G', Main.drain [0x02; 99; 0; 0; 0] (Main.fresh z) G = (Some f, G') /\
                Main.state f <> Main.LED_OUT_OF_RANGE) /\
  (res.2 = [0x02; 0x00] /\
   NeoPixel.pixels (Main.leds res.1) !! 5%nat = Some (255, 0, 0)) /\
  (res'.2 = [0x02; 0x00] /\
   NeoPixel.pixels (Main.leds res'.1) !! 5%nat = Some (255, 0, 0)).
Proof.
  intros G z res res'.
  destruct SET_LEDS_out_of_range_unreported as (H1 & H2 & H3).
  split; [|split].
  - destruct (Main.drain [0x02; 99; 0; 0; 0] (Main.fresh z) G) as [[f|] G'] eqn:E.
    + exists f, G'. split; [reflexivity|]. exact (H1 _ _ _ _ _ E).
    + vm_compute in E. discriminate E.
  - destruct (H2 z G eq_refl eq_refl) as (Hout & _ & Hpx).
    split; [exact Hout|]. fold res in Hpx. rewrite Hpx. reflexivity.
  - destruct (H3 z G eq_refl eq_refl) as (Hout & _ & Hpx).
    split; [exact Hout|]. fold res' in Hpx. rewrite Hpx. reflexivity.
Defined.


Ltac bytes :=
  repeat first [apply List.Forall_cons | apply List.Forall_nil];
  unfold Main.valid_group, Main.group_bytes, Main.group_index, Main.LED_COUNT,
         is_byte;
  simpl; repeat split; lia.

(** ** What one byte can do to the frame locals *)

Lemma cmdGetLeds_cmd f data G : Main.cmd (Main.cmdGetLeds f data G) = Main.cmd f.
Proof.
  unfold Main.cmdGetLeds.
  repeat match goal with |- context [if ?c then _ else _] => destruct c end;
    reflexivity.
Qed.

Lemma cmdGetLeds_count f data G : Main.count (Main.cmdGetLeds f data G) = Main.count f.
Proof.
  unfold Main.cmdGetLeds.
  repeat match goal with |- context [if ?c then _ else _] => destruct c end;
    reflexivity.
Qed.

Lemma cmdSetLeds_cmd_count f data G :
  Main.cmd (Main.cmdSetLeds f data G).1 = Main.cmd f /\
  Main.count (Main.cmdSetLeds f data G).1 = Main.count f.
Proof.
  unfold Main.cmdSetLeds.
  repeat match goal with |- context [if ?c then _ else _] => destruct c end;
    split; reflexivity.
Qed.

Lemma cmdSetLedsAll_cmd_count f data G :
  Main.cmd (Main.cmdSetLedsAll f data G).1 = Main.cmd f /\
  Main.count (Main.cmdSetLedsAll f data G).1 = Main.count f.
Proof.
  unfold Main.cmdSetLedsAll.
  repeat match goal with |- context [if ?c then _ else _] => destruct c end;
    split; reflexivity.
Qed.

(** A byte that arrives before any tag was recognised and is no tag
    itself is rejected by [cmdNone]. *)
Lemma dispatch_no_tag f data G :
  Main.cmd f = Main.NONE -> Main.cmd_of (uint8 data) = Main.NONE ->
  Main.dispatch f data G = (Main.set_state f Main.INVALID_COMMAND, G).
Proof.
  intros Hc Hd. unfold Main.dispatch. rewrite Hc.
  destruct (cmdNone_cases f (uint8 data)) as [[Hne _]|[_ ->]]; [contradiction|].
  simpl. rewrite Hc. reflexivity.
Qed.

Lemma dispatch_cmd f data G :
  Main.cmd (Main.dispatch f data G).1 =
  match Main.cmd f with
  | Main.NONE => Main.cmd_of (uint8 data)
  | c => c
  end.
Proof.
  unfold Main.dispatch. destruct (Main.cmd f) eqn:Hc.
  - destruct (cmdNone_cases f (uint8 data)) as [[Hne ->]|[He ->]].
    + simpl. destruct (Main.cmd_of (uint8 data)) eqn:E; simpl; auto.
      apply cmdGetLeds_cmd.
    + simpl. rewrite Hc. simpl. congruence.
  - simpl. rewrite cmdGetLeds_cmd. exact Hc.
  - rewrite (proj1 (cmdSetLeds_cmd_count _ _ _)). exact Hc.
  - rewrite (proj1 (cmdSetLedsAll_cmd_count _ _ _)). exact Hc.
Qed.

Lemma dispatch_count f data G :
  Main.count (Main.dispatch f data G).1 =
  match Main.cmd f, Main.cmd_of (uint8 data) with
  | Main.NONE, Main.GET_LEDS => 0
  | _, _ => Main.count f
  end.
Proof.
  unfold Main.dispatch. destruct (Main.cmd f) eqn:Hc.
  - destruct (cmdNone_cases f (uint8 data)) as [[Hne ->]|[He ->]].
    + simpl. destruct (Main.cmd_of (uint8 data)) eqn:E; simpl; auto.
      apply cmdGetLeds_count.
    + simpl. rewrite Hc, He. reflexivity.
  - simpl. rewrite cmdGetLeds_count. reflexivity.
  - rewrite (proj2 (cmdSetLeds_cmd_count _ _ _)). reflexivity.
  - rewrite (proj2 (cmdSetLedsAll_cmd_count _ _ _)). reflexivity.
Qed.

(** Bytes that arrive while the status is an error leave the globals
    alone; so do all bytes of a GET_LEDS frame. *)
Lemma dispatch_globals_kept f data G :
  Main.accepting (Main.state f) = false \/
  Main.cmd f = Main.NONE \/ Main.cmd f = Main.GET_LEDS ->
  (Main.dispatch f data G).2 = G.
Proof.
  intros H. unfold Main.dispatch. destruct (Main.cmd f) eqn:Hc.
  - destruct (Main.cmd (Main.cmdNone f (uint8 data))); reflexivity.
  - reflexivity.
  - destruct H as [H|[H|H]]; try discriminate.
    unfold Main.cmdSetLeds. rewrite H, andb_false_r.
    destruct (_ <? 0); reflexivity.
  - destruct H as [H|[H|H]]; try discriminate.
    unfold Main.cmdSetLedsAll. rewrite H, andb_false_r.
    destruct (_ <? 0); reflexivity.
Qed.

Lemma length_snapshot L d : length (Main.snapshot L d) = length d.
Proof.
  unfold Main.snapshot. generalize (seqZ 0 Main.LED_COUNT). intros l. revert d.
  induction l as [|i l IH]; intros d; simpl; [reflexivity|].
  rewrite IH. unfold Main.snapshot_led. rewrite !length_insert. reflexivity.
Qed.

Lemma cmdGetLeds_length f data G :
  length (Main.ledData (Main.cmdGetLeds f data G)) = length (Main.ledData f).
Proof.
  unfold Main.cmdGetLeds. destruct (_ <? 0); [reflexivity|].
  destruct (_ && _); [|reflexivity].
  cbn [Main.ledData Main.set_state Main.set_ledData]. apply length_snapshot.
Qed.

Lemma cmdSetLeds_length f data G :
  length (Main.ledData (Main.cmdSetLeds f data G).1) = length (Main.ledData f).
Proof.
  unfold Main.cmdSetLeds. destruct (_ <? 0); [reflexivity|].
  destruct (_ && _); [|reflexivity].
  destruct (_ =? 3); [destruct (_ >=? _)|]; simpl; apply length_insert.
Qed.

Lemma cmdSetLedsAll_length f data G :
  length (Main.ledData (Main.cmdSetLedsAll f data G).1) = length (Main.ledData f).
Proof.
  unfold Main.cmdSetLedsAll. destruct (_ <? 0); [reflexivity|].
  destruct (_ && _); [|reflexivity]. simpl. apply length_insert.
Qed.

Lemma dispatch_length f data G :
  length (Main.ledData (Main.dispatch f data G).1) = length (Main.ledData f).
Proof.
  unfold Main.dispatch. destruct (Main.cmd f).
  - destruct (cmdNone_cases f (uint8 data)) as [[_ ->]|[_ ->]].
    + cbn [Main.cmd Main.set_cmd].
      destruct (Main.cmd_of (uint8 data)); cbn [fst];
        rewrite ?cmdGetLeds_length; reflexivity.
    + destruct (Main.cmd (Main.set_state f Main.INVALID_COMMAND)); cbn [fst];
        rewrite ?cmdGetLeds_length; reflexivity.
  - apply cmdGetLeds_length.
  - apply cmdSetLeds_length.
  - apply cmdSetLedsAll_length.
Qed.

(** When a byte leaves the frame in GET_LEDS with status OK, either
    nothing changed or the byte made [cmdGetLeds] take the snapshot. *)
Lemma dispatch_get_ledData f data G :
  let f' := (Main.dispatch f data G).1 in
  Main.cmd f' = Main.GET_LEDS -> Main.state f' = Main.OK ->
  (Main.cmd f = Main.GET_LEDS /\ Main.state f = Main.OK /\
   Main.ledData f' = Main.ledData f) \/
  Main.ledData f' = Main.snapshot (Main.leds G) (Main.ledData f).
Proof.
  intros f' Hc Hs. unfold f' in *. clear f'.
  pose proof (dispatch_cmd f data G) as Hcmd. rewrite Hc in Hcmd.
  unfold Main.dispatch in *. destruct (Main.cmd f) eqn:Hcf.
  - destruct (cmdNone_cases f (uint8 data)) as [[Hne E]|[He E]];
      rewrite E in *; [|congruence].
    cbn [Main.cmd Main.set_cmd] in *. rewrite <- Hcmd in *.
    cbn [fst] in *. unfold Main.cmdGetLeds in *.
    cbn [Main.count Main.set_count Main.set_cmd Main.state] in *.
    change (0 <? 0) with false in *. change (0 =? 0) with true in *.
    cbn [andb] in *.
    destruct (Main.accepting (Main.state f)) eqn:Ha; [right; reflexivity|].
    change (Main.state f = Main.OK) in Hs. rewrite Hs in Ha. discriminate.
  - cbn [fst] in *. unfold Main.cmdGetLeds in *.
    destruct (Main.count f <? 0); [discriminate|].
    destruct (_ && _); [right; reflexivity|left; auto].
  - discriminate.
  - discriminate.
Qed.

(** ** The response *)

Lemma iteration_fst f data G :
  (Main.iteration f data G).1 =
  Main.set_count (Main.dispatch f data G).1
    (int16 (Main.count (Main.dispatch f data G).1 + 1)).
Proof. unfold Main.iteration. destruct (Main.dispatch f data G); reflexivity. Qed.

Lemma iteration_snd f data G :
  (Main.iteration f data G).2 = (Main.dispatch f data G).2.
Proof. unfold Main.iteration. destruct (Main.dispatch f data G); reflexivity. Qed.

Lemma iteration_snapshot_inv G0 f data G :
  Main.wf_globals G0 ->
  Main.snapshot_inv G0 f G ->
  Main.snapshot_inv G0 (Main.iteration f data G).1 (Main.iteration f data G).2.
Proof.
  intros [HN HW] (Hlen & HG & Hsnap & Hnone).
  rewrite iteration_fst, iteration_snd.
  unfold Main.snapshot_inv.
  cbn [Main.set_count Main.ledData Main.cmd Main.state].
  pose proof (dispatch_cmd f data G) as Hcmd.
  split; [|split; [|split]].
  - rewrite dispatch_length. exact Hlen.
  - intros Hc'. rewrite Hcmd in Hc'.
    assert (Hc : Main.cmd f = Main.NONE \/ Main.cmd f = Main.GET_LEDS).
    { destruct (Main.cmd f); auto; destruct Hc'; discriminate. }
    rewrite dispatch_globals_kept by auto. auto.
  - intros Hc' Hs'.
    assert (Hc : Main.cmd f = Main.NONE \/ Main.cmd f = Main.GET_LEDS).
    { rewrite Hcmd in Hc'. destruct (Main.cmd f); auto; discriminate. }
    destruct (dispatch_get_ledData f data G Hc' Hs') as [(H1 & H2 & H3)|H].
    + rewrite H3. auto.
    + rewrite H, (HG Hc). apply snapshot_spec; assumption.
  - intros Hc'. rewrite Hcmd in Hc'.
    destruct (Main.cmd f) eqn:Hc; try discriminate.
    rewrite dispatch_no_tag by assumption. discriminate.
Qed.

Lemma drain_snapshot_inv G0 input : forall f G,
  Main.wf_globals G0 -> Forall is_byte input ->
  Main.snapshot_inv G0 f G ->
  exists f' G', Main.drain input f G = (Some f', G') /\ Main.snapshot_inv G0 f' G'.
Proof.
  induction input as [|data rest IH]; intros f G HG0 Hin Hinv.
  - exists f, G. split; [reflexivity|exact Hinv].
  - inversion Hin as [|? ? Hd Hrest]; subst.
    rewrite drain_cons by (unfold is_byte in Hd; lia).
    apply IH; auto. apply iteration_snapshot_inv; assumption.
Qed.

Lemma fresh_snapshot_inv G stack :
  length stack = 256%nat -> Main.snapshot_inv G (Main.fresh stack) G.
Proof.
  intros H. repeat split; simpl; auto; discriminate.
Qed.

(** C6: on the 64-LED buffer, a frame that ends in GET_LEDS with status
    OK is answered with exactly 258 bytes: [0x01], [0x00], then the
    quadruple (index, r, g, b) of every LED in ascending index order; a
    frame that ends in SET_LEDS or SET_LEDS_ALL with status OK, and every
    frame whose status is not OK, is answered with tag and status only.
    A frame never ends with status OK and no command. *)
Theorem response_format (input stack : list Z) (G : Main.globals) :
  Main.wf_globals G -> length stack = 256%nat ->
  input <> [] -> Forall is_byte input ->
  exists f G',
    Main.drain input (Main.fresh stack) G = (Some f, G') /\
    Main.loop_serial input stack G = (G', Main.respond f) /\
    (Main.state f = Main.OK -> Main.cmd f = Main.GET_LEDS ->
       Main.respond f =
         [0x01; 0x00] ++ Main.quadruples (NeoPixel.pixels (Main.leds G')) /\
       length (Main.respond f) = 258%nat) /\
    (Main.state f = Main.OK ->
     Main.cmd f = Main.SET_LEDS \/ Main.cmd f = Main.SET_LEDS_ALL ->
       Main.respond f = [Main.cmd_byte (Main.cmd f); 0x00]) /\
    (Main.state f <> Main.OK ->
       Main.respond f = [Main.cmd_byte (Main.cmd f); Main.state_byte (Main.state f)]) /\
    (Main.state f = Main.OK -> Main.cmd f <> Main.NONE).
Proof.
  intros HG Hstack Hne Hin.
  destruct (drain_snapshot_inv G input (Main.fresh stack) G HG Hin
              (fresh_snapshot_inv G stack Hstack))
    as (f & G' & E & (Hlen & HG' & Hsnap & Hnone)).
  exists f, G'. split; [exact E|]. split; [|split; [|split; [|split]]].
  - unfold Main.loop_serial. destruct input; [contradiction|]. rewrite E. reflexivity.
  - intros Hs Hc. unfold Main.respond. rewrite Hs, Hc.
    unfold Main.btRespond. rewrite (Hsnap Hc Hs), (HG' (or_intror Hc)).
    assert (Hq : length (Main.quadruples (NeoPixel.pixels (Main.leds G))) = 256%nat).
    { unfold Main.quadruples. rewrite length_quadruples_from.
      destruct HG as [HN _]. unfold NeoPixel.numLEDs, Main.LED_COUNT in HN. lia. }
    rewrite take_ge by (rewrite Hq; unfold Main.LED_COUNT; lia).
    split; [reflexivity|]. rewrite length_app, Hq. reflexivity.
  - intros Hs Hc. unfold Main.respond. rewrite Hs.
    destruct Hc as [-> | ->]; reflexivity.
  - intros Hs. unfold Main.respond.
    destruct (Main.state f); try reflexivity. contradiction.
  - intros Hs Hc. exact (Hnone Hc Hs).
Qed.

Lemma response_format_witness :
  let G := Main.mk_globals (NeoPixel.new 64) Main.RANDOM in
  let z := replicate 256 0 in
  (Main.loop_serial [0x01; 0x2A] z G).2 =
    [0x01; 0x00] ++ Main.quadruples (replicate 64 (0, 0, 0)) /\
  (Main.loop_serial [0x02; 5; 255; 0; 0] z G).2 = [0x02; 0x00] /\
  (Main.loop_serial [0x02; 5; 255] z G).2 = [0x02; 0x01].
Proof.
  intros G z.
  assert (HG : Main.wf_globals G) by apply wf_globals_new.
  split; [|split].
  - destruct (response_format [0x01; 0x2A] z G HG eq_refl ltac:(discriminate)
                ltac:(bytes)) as (f & G' & E & Hloop & Hget & _).
    vm_compute in E. injection E as <- <-.
    rewrite Hloop. apply (Hget eq_refl eq_refl).
  - destruct (response_format [0x02; 5; 255; 0; 0] z G HG eq_refl
                ltac:(discriminate) ltac:(bytes))
      as (f & G' & E & Hloop & _ & Hset & _).
    vm_compute in E. injection E as <- <-.
    rewrite Hloop. apply (Hset eq_refl (or_introl eq_refl)).
  - destruct (response_format [0x02; 5; 255] z G HG eq_refl
                ltac:(discriminate) ltac:(bytes))
      as (f & G' & E & Hloop & _ & _ & Herr & _).
    vm_compute in E. injection E as <- <-.
    rewrite Hloop. apply (Herr ltac:(discriminate)).
Defined.

(** ** SET_LEDS_ALL frames *)

(** Each of the first three payload bytes is stored and then fills the
    strip from [ledData[0..2]], complete or not. *)
Lemma iteration_SET_ALL c st d data G :
  0 <= c < 3 -> Main.accepting st = true -> is_byte data ->
  let d' := <[Z.to_nat c := data]> d in
  Main.iteration (Main.mk_frame c Main.SET_LEDS_ALL st d) data G =
  (Main.mk_frame (c + 1) Main.SET_LEDS_ALL Main.OK d',
   Main.mk_globals
     (NeoPixel.show
        (NeoPixel.fill (Main.leds G)
           (NeoPixel.Color (d' !!! 0%nat) (d' !!! 1%nat) (d' !!! 2%nat))))
     Main.BT).
Proof.
  intros Hc Hst Hdata d'.
  unfold Main.iteration, Main.dispatch, Main.cmdSetLedsAll.
  cbn [Main.cmd Main.count Main.state Main.ledData Main.set_ledData].
  rewrite (uint8_id _ Hdata), Hst.
  destruct (Z.ltb_spec c 0); [lia|].
  destruct (Z.ltb_spec c 3); [|lia].
  cbn [andb Main.set_state Main.set_count Main.count Main.cmd Main.state
       Main.ledData Main.set_ledData].
  rewrite int16_id by lia. reflexivity.
Qed.

Lemma show_fill L c :
  NeoPixel.show (NeoPixel.fill L c) =
  NeoPixel.mk (replicate (length (NeoPixel.pixels L)) (NeoPixel.unpack c))
              (replicate (length (NeoPixel.pixels L)) (NeoPixel.unpack c)).
Proof. rewrite fill_spec. reflexivity. Qed.

(** C2 (the code at the failing input, and on the complete frame): the
    first payload byte alone already fills the strip, from that byte and
    the two not yet received bytes of [ledData], flushes it and sets the
    mode to [BT]: the frame [0x03, r] is answered [0x03, 0x00].  The
    complete frame [0x03, r, g, b] leaves every LED at (r, g, b), on the
    strip too, sets the mode to [BT] and is answered [0x03, 0x00]. *)
Theorem SET_LEDS_ALL_fills_on_every_byte :
  (forall stack G r,
     length stack = 256%nat -> Forall is_byte stack ->
     NeoPixel.numLEDs (Main.leds G) = Main.LED_COUNT -> is_byte r ->
     let c := (r, stack !!! 1%nat, stack !!! 2%nat) in
     Main.loop_serial [0x03; r] stack G =
     (Main.mk_globals (NeoPixel.mk (replicate 64 c) (replicate 64 c)) Main.BT,
      [0x03; 0x00])) /\
  (forall stack G r g b,
     length stack = 256%nat ->
     NeoPixel.numLEDs (Main.leds G) = Main.LED_COUNT ->
     is_byte r -> is_byte g -> is_byte b ->
     Main.loop_serial [0x03; r; g; b] stack G =
     (Main.mk_globals
        (NeoPixel.mk (replicate 64 (r, g, b)) (replicate 64 (r, g, b))) Main.BT,
      [0x03; 0x00])).
Proof.
  assert (Hfirst : forall stack G,
            Main.iteration (Main.fresh stack) 0x03 G =
            (Main.mk_frame 0 Main.SET_LEDS_ALL Main.INVALID_DATA_LENGTH stack, G))
    by reflexivity.
  split.
  - intros stack G r Hlen Hbytes HN Hr c.
    unfold NeoPixel.numLEDs, Main.LED_COUNT in HN.
    assert (HN' : length (NeoPixel.pixels (Main.leds G)) = 64%nat) by lia.
    destruct stack as [|s0 [|s1 [|s2 stack]]]; try (simpl in Hlen; lia).
    assert (Hs1 : is_byte s1) by (inversion Hbytes as [|? ? _ H1]; inversion H1; auto).
    assert (Hs2 : is_byte s2).
    { inversion Hbytes as [|? ? _ H1]. inversion H1 as [|? ? _ H2].
      inversion H2; auto. }
    unfold Main.loop_serial. unfold is_byte in Hr.
    rewrite drain_cons, Hfirst by lia. cbn [fst snd].
    rewrite drain_cons, iteration_SET_ALL by (unfold is_byte; auto; lia).
    cbn [fst snd Main.drain Main.respond Main.state Main.cmd].
    rewrite show_fill, HN'.
    change (<[Z.to_nat 0 := r]> (s0 :: s1 :: s2 :: stack))
      with (r :: s1 :: s2 :: stack).
    change ((r :: s1 :: s2 :: stack) !!! 0%nat) with r.
    change ((r :: s1 :: s2 :: stack) !!! 1%nat) with s1.
    change ((r :: s1 :: s2 :: stack) !!! 2%nat) with s2.
    rewrite unpack_Color by (unfold is_byte; auto). reflexivity.
  - intros stack G r g b Hlen HN Hr Hg Hb.
    unfold NeoPixel.numLEDs, Main.LED_COUNT in HN.
    assert (HN' : length (NeoPixel.pixels (Main.leds G)) = 64%nat) by lia.
    destruct stack as [|s0 [|s1 [|s2 stack]]]; try (simpl in Hlen; lia).
    unfold Main.loop_serial.
    assert (Hr' := Hr). assert (Hg' := Hg). assert (Hb' := Hb).
    unfold is_byte in Hr', Hg', Hb'.
    rewrite drain_cons, Hfirst by lia. cbn [fst snd].
    rewrite drain_cons, iteration_SET_ALL by (auto; lia). cbn [fst snd].
    rewrite drain_cons, iteration_SET_ALL by (auto; lia). cbn [fst snd].
    rewrite drain_cons, iteration_SET_ALL by (auto; lia).
    cbn [fst snd Main.drain Main.respond Main.state Main.cmd Main.leds].
    rewrite !show_fill. cbn [NeoPixel.pixels]. rewrite !length_replicate, HN'.
    change (<[Z.to_nat (0 + 1 + 1) := b]>
              (<[Z.to_nat (0 + 1) := g]>
                 (<[Z.to_nat 0 := r]> (s0 :: s1 :: s2 :: stack))))
      with (r :: g :: b :: stack).
    change ((r :: g :: b :: stack) !!! 0%nat) with r.
    change ((r :: g :: b :: stack) !!! 1%nat) with g.
    change ((r :: g :: b :: stack) !!! 2%nat) with b.
    rewrite unpack_Color by assumption. reflexivity.
Qed.

Lemma SET_LEDS_ALL_fills_on_every_byte_witness :
  let G := Main.mk_globals (NeoPixel.new 64) Main.RANDOM in
  Main.loop_serial [0x03; 10] (replicate 256 7) G =
    (Main.mk_globals
       (NeoPixel.mk (replicate 64 (10, 7, 7)) (replicate 64 (10, 7, 7))) Main.BT,
     [0x03; 0x00]) /\
  Main.loop_serial [0x03; 10; 20; 30] (replicate 256 7) G =
    (Main.mk_globals
       (NeoPixel.mk (replicate 64 (10, 20, 30)) (replicate 64 (10, 20, 30))) Main.BT,
     [0x03; 0x00]).
Proof.
  intros G.
  destruct SET_LEDS_ALL_fills_on_every_byte as [H1 H2].
  split.
  - apply (H1 (replicate 256 7) G 10); try reflexivity.
    + apply bytes_replicate. unfold is_byte. lia.
    + unfold is_byte. lia.
  - apply (H2 (replicate 256 7) G 10 20 30); try reflexivity; unfold is_byte; lia.
Defined.

(** ** Status INVALID_STATE and rejected frames *)

Lemma iteration_count_inv f data rest G :
  Main.count_inv f (data :: rest) ->
  Main.count_inv (Main.iteration f data G).1 rest.
Proof.
  intros (Hlo & Hhi & Hcmd). cbn [length] in Hhi. rewrite Nat2Z.inj_succ in Hhi.
  rewrite iteration_fst. unfold Main.count_inv.
  cbn [Main.set_count Main.count Main.cmd].
  rewrite dispatch_count.
  assert (Hc : forall c, (c = 0 \/ c = Main.count f) ->
            -1 <= int16 (c + 1) /\
            Z.max (int16 (c + 1)) 0 + Z.of_nat (length rest) <= 32767 /\
            0 <= int16 (c + 1)).
  { intros c Hc. rewrite int16_id by lia. lia. }
  destruct (Main.cmd f), (Main.cmd_of (uint8 data));
    (destruct (Hc 0 (or_introl eq_refl)) as (H1 & H2 & H3);
     destruct (Hc (Main.count f) (or_intror eq_refl)) as (H4 & H5 & H6);
     repeat split; auto).
Qed.

Lemma iteration_keeps_out_of_INVALID_STATE f data rest G :
  Main.count_inv f (data :: rest) ->
  Main.state f <> Main.INVALID_STATE ->
  Main.state (Main.iteration f data G).1 <> Main.INVALID_STATE.
Proof.
  intros (Hlo & Hhi & Hcmd) Hs. rewrite iteration_state.
  destruct (dispatch_state f data G) as [H|[[H _]|[[H _]|(H & Hc & Hn)]]];
    simpl in H; try (rewrite H; auto; discriminate).
  specialize (Hcmd Hc). lia.
Qed.

Lemma drain_no_INVALID_STATE input : forall f G,
  Forall is_byte input -> Main.count_inv f input ->
  Main.state f <> Main.INVALID_STATE ->
  exists f' G', Main.drain input f G = (Some f', G') /\
                Main.state f' <> Main.INVALID_STATE.
Proof.
  induction input as [|data rest IH]; intros f G Hin Hinv Hs.
  - exists f, G. split; [reflexivity|exact Hs].
  - inversion Hin as [|? ? Hd Hrest]; subst.
    rewrite drain_cons by (unfold is_byte in Hd; lia).
    apply IH; [assumption| |].
    + apply iteration_count_inv. exact Hinv.
    + eapply iteration_keeps_out_of_INVALID_STATE; eassumption.
Qed.

Lemma fresh_count_inv stack input :
  Z.of_nat (length input) <= 32767 -> Main.count_inv (Main.fresh stack) input.
Proof.
  intros H. unfold Main.count_inv. cbn [Main.fresh Main.count Main.cmd].
  split; [lia|split; [lia|]]. intros Hc. exfalso. apply Hc. reflexivity.
Qed.

(** C4 (as the code has it): each handler sets INVALID_STATE when it is
    called with [count < 0]; a byte that arrives before any command tag
    was recognised goes to [cmdNone], and when it is no tag itself the
    status becomes INVALID_COMMAND; no frame of at most 32767 bytes
    ends with status INVALID_STATE. *)
Theorem INVALID_STATE_needs_negative_count :
  (forall f data G,
     Main.count f < 0 ->
     Main.state (Main.cmdGetLeds f data G) = Main.INVALID_STATE /\
     Main.state (Main.cmdSetLeds f data G).1 = Main.INVALID_STATE /\
     Main.state (Main.cmdSetLedsAll f data G).1 = Main.INVALID_STATE) /\
  (forall f data G,
     Main.cmd f = Main.NONE -> Main.cmd_of (uint8 data) = Main.NONE ->
     Main.state (Main.iteration f data G).1 = Main.INVALID_COMMAND /\
     Main.state_byte (Main.state (Main.iteration f data G).1) = 0xFF) /\
  (forall input stack G,
     Forall is_byte input -> Z.of_nat (length input) <= 32767 ->
     exists f G', Main.drain input (Main.fresh stack) G = (Some f, G') /\
                  Main.state f <> Main.INVALID_STATE).
Proof.
  split; [|split].
  - intros f data G Hc.
    unfold Main.cmdGetLeds, Main.cmdSetLeds, Main.cmdSetLedsAll.
    destruct (Z.ltb_spec (Main.count f) 0); [|lia]. repeat split.
  - intros f data G Hc Hd.
    rewrite iteration_state, dispatch_no_tag by assumption. split; reflexivity.
  - intros input stack G Hin Hlen.
    apply drain_no_INVALID_STATE;
      [assumption|apply fresh_count_inv; assumption|discriminate].
Qed.

Lemma INVALID_STATE_needs_negative_count_witness :
  let G := Main.mk_globals (NeoPixel.new 64) Main.RANDOM in
  Main.state (Main.cmdSetLeds (Main.fresh []) 7 G).1 = Main.INVALID_STATE /\
  Main.state (Main.iteration (Main.fresh []) 7 G).1 = Main.INVALID_COMMAND /\
  exists f G', Main.drain [7; 7] (Main.fresh []) G = (Some f, G') /\
               Main.state f <> Main.INVALID_STATE.
Proof.
  intros G.
  destruct INVALID_STATE_needs_negative_count as (Ha & Hb & Hc).
  split; [|split].
  - apply (Ha (Main.fresh []) 7 G). simpl. lia.
  - apply (Hb (Main.fresh []) 7 G); reflexivity.
  - apply (Hc [7; 7] [] G); [bytes|simpl; lia].
Defined.

(** C4 as the specification words it fails: the byte 0x07 arriving on a
    fresh frame sets INVALID_COMMAND, not INVALID_STATE. *)
Lemma byte_before_tag_not_INVALID_STATE :
  ~ (forall f data G,
       Main.cmd f = Main.NONE -> is_byte data ->
       Main.cmd_of (uint8 data) = Main.NONE ->
       Main.state (Main.iteration f data G).1 = Main.INVALID_STATE).
Proof.
  intros H.
  specialize (H (Main.fresh []) 7 (Main.mk_globals (NeoPixel.new 64) Main.RANDOM)
                eq_refl ltac:(unfold is_byte; lia) eq_refl).
  discriminate H.
Qed.

Lemma respond_INVALID_COMMAND f :
  Main.state f = Main.INVALID_COMMAND ->
  Main.respond f = [Main.cmd_byte (Main.cmd f); 0xFF].
Proof. intros H. unfold Main.respond. rewrite H. reflexivity. Qed.

(** While no byte is a tag, nothing but the status changes. *)
Lemma drain_no_tags input : forall f G,
  Main.cmd f = Main.NONE -> Forall is_byte input ->
  Forall (fun d => Main.cmd_of (uint8 d) = Main.NONE) input ->
  exists f', Main.drain input f G = (Some f', G) /\ Main.cmd f' = Main.NONE /\
             (input <> [] -> Main.state f' = Main.INVALID_COMMAND).
Proof.
  induction input as [|data rest IH]; intros f G Hc Hin Hno.
  - exists f. repeat split; auto. congruence.
  - inversion Hin as [|? ? Hd Hrest]; subst.
    inversion Hno as [|? ? Hn Hno']; subst.
    rewrite drain_cons by (unfold is_byte in Hd; lia).
    rewrite iteration_fst, iteration_snd, dispatch_no_tag by assumption.
    cbn [fst snd].
    set (f1 := Main.set_count _ _).
    destruct (IH f1 G Hc Hrest Hno') as (f' & E & Hc' & Hs').
    exists f'. split; [exact E|split; [exact Hc'|]]. intros _.
    destruct rest as [|d' rest'].
    + injection E as <-. reflexivity.
    + apply Hs'. discriminate.
Qed.

(** After the status became INVALID_COMMAND, later bytes can still
    select the command, but change neither the status nor the globals. *)
Lemma drain_rejected rest : forall f G,
  Main.state f = Main.INVALID_COMMAND ->
  Forall is_byte rest -> Main.count_inv f rest ->
  exists f', Main.drain rest f G = (Some f', G) /\
             Main.state f' = Main.INVALID_COMMAND /\
             Main.cmd f' =
               match Main.cmd f with
               | Main.NONE => Main.first_tag rest
               | c => c
               end.
Proof.
  induction rest as [|data rest IH]; intros f G Hs Hin Hinv.
  - exists f. repeat split; auto. simpl. destruct (Main.cmd f); reflexivity.
  - inversion Hin as [|? ? Hd Hrest]; subst.
    rewrite drain_cons by (unfold is_byte in Hd; lia).
    assert (Hs1 : Main.state (Main.iteration f data G).1 = Main.INVALID_COMMAND).
    { rewrite iteration_state.
      destruct (dispatch_state f data G) as [H|[[_ H]|[[H _]|(_ & Hc & Hn)]]].
      - simpl in H. congruence.
      - rewrite Hs in H. discriminate.
      - exact H.
      - destruct Hinv as (_ & _ & Hcmd). specialize (Hcmd Hc). lia. }
    assert (HG1 : (Main.iteration f data G).2 = G).
    { rewrite iteration_snd. apply dispatch_globals_kept. left.
      rewrite Hs. reflexivity. }
    rewrite HG1.
    destruct (IH (Main.iteration f data G).1 G Hs1 Hrest
                (iteration_count_inv f data rest G Hinv)) as (f' & E & Hs' & Hc').
    exists f'. split; [exact E|split; [exact Hs'|]].
    rewrite Hc'. rewrite iteration_fst. cbn [Main.set_count Main.cmd].
    rewrite dispatch_cmd. cbn [Main.first_tag].
    destruct (Main.cmd f); reflexivity.
Qed.

(** C10 (as the code has it): a frame none of whose bytes is a command
    tag is answered [0x00, 0xFF] and leaves the globals alone; a frame of
    at most 32767 bytes whose first byte is no command tag is answered
    with status 0xFF and, as tag byte, the first later byte that is a
    command tag, or 0x00 when there is none. *)
Theorem invalid_first_byte_response :
  (forall input stack G,
     input <> [] -> Forall is_byte input ->
     Forall (fun d => Main.cmd_of (uint8 d) = Main.NONE) input ->
     Main.loop_serial input stack G = (G, [0x00; 0xFF])) /\
  (forall d rest stack G,
     Forall is_byte (d :: rest) -> Main.cmd_of (uint8 d) = Main.NONE ->
     Z.of_nat (length (d :: rest)) <= 32767 ->
     Main.loop_serial (d :: rest) stack G =
     (G, [Main.cmd_byte (Main.first_tag rest); 0xFF])).
Proof.
  split.
  - intros input stack G Hne Hin Hno.
    destruct (drain_no_tags input (Main.fresh stack) G eq_refl Hin Hno)
      as (f' & E & Hc & Hs).
    unfold Main.loop_serial. destruct input; [contradiction|].
    rewrite E, respond_INVALID_COMMAND by auto. rewrite Hc. reflexivity.
  - intros d rest stack G Hin Hd Hlen.
    inversion Hin as [|? ? Hbd Hrest]; subst.
    unfold Main.loop_serial.
    rewrite drain_cons by (unfold is_byte in Hbd; lia).
    pose proof (iteration_count_inv _ d rest G
                  (fresh_count_inv stack (d :: rest) Hlen)) as Hinv.
    assert (Hs1 : Main.state (Main.iteration (Main.fresh stack) d G).1 =
                  Main.INVALID_COMMAND).
    { rewrite iteration_state, dispatch_no_tag by auto. reflexivity. }
    assert (Hc1 : Main.cmd (Main.iteration (Main.fresh stack) d G).1 = Main.NONE).
    { rewrite iteration_fst, dispatch_no_tag by auto. reflexivity. }
    assert (HG1 : (Main.iteration (Main.fresh stack) d G).2 = G).
    { rewrite iteration_snd, dispatch_no_tag by auto. reflexivity. }
    rewrite HG1.
    destruct (drain_rejected rest _ G Hs1 Hrest Hinv) as (f' & E & Hs' & Hc').
    rewrite E, respond_INVALID_COMMAND by exact Hs'.
    rewrite Hc', Hc1. reflexivity.
Qed.

Lemma invalid_first_byte_response_witness :
  let G := Main.mk_globals (NeoPixel.new 64) Main.RANDOM in
  Main.loop_serial [7; 9] [] G = (G, [0x00; 0xFF]) /\
  Main.loop_serial [7; 9; 2; 1] [] G = (G, [0x02; 0xFF]).
Proof.
  intros G.
  destruct invalid_first_byte_response as [H1 H2].
  split.
  - apply (H1 [7; 9] [] G); [discriminate|bytes|].
    repeat first [apply List.Forall_cons | apply List.Forall_nil]; reflexivity.
  - apply (H2 7 [9; 2; 1] [] G); [bytes|reflexivity|simpl; lia].
Defined.

(** C10 as stated fails: in the frame [0x07, 0x02] the first byte is no
    command tag, yet the response is [0x02, 0xFF]. *)
Lemma invalid_first_byte_tag_not_always_zero :
  ~ (forall d rest stack G,
       Forall is_byte (d :: rest) -> Main.cmd_of (uint8 d) = Main.NONE ->
       exists s, (Main.loop_serial (d :: rest) stack G).2 = [0x00; s]).
Proof.
  intros H.
  destruct (H 7 [2] [] (Main.mk_globals (NeoPixel.new 64) Main.RANDOM)
              ltac:(bytes) eq_refl) as [s Hs].
  vm_compute in Hs. discriminate Hs.
Qed.

(** ** The protocol inside [loop()] *)

(** X18: while the mode is [BT] and the button reports nothing, a call
    of [loop()] is its serial half: the animator statics and the random
    source are left alone, and the pixel buffer and the strip are
    touched by nothing but the protocol. *)
Lemma loop_in_BT fw i :
  Main.mode (Main.glob fw) = Main.BT ->
  (Button.read (Main.button fw) (Main.pin i)).1 = Button.RELEASED ->
  Main.loop fw i =
  (Main.mk_firmware
     (Main.loop_serial (Main.serial i) (Main.stack i) (Main.glob fw)).1
     (Button.read (Main.button fw) (Main.pin i)).2
     (Main.anim fw) (Main.prng fw),
   (Main.loop_serial (Main.serial i) (Main.stack i) (Main.glob fw)).2).
Proof.
  intros Hm Hev. unfold Main.loop.
  destruct (Button.read (Main.button fw) (Main.pin i)) as [ev btn].
  simpl in Hev. subst ev. cbn [Main.loop_button fst snd]. rewrite Hm.
  cbn [Main.loop_mode].
  destruct (Main.glob fw) as [L m] eqn:EG. simpl in Hm. subst m.
  cbn [Main.leds].
  destruct (Main.loop_serial (Main.serial i) (Main.stack i)
              (Main.mk_globals L Main.BT)) as [G out].
  reflexivity.
Qed.

Lemma loop_in_BT_witness :
  let fw := Main.mk_firmware (Main.mk_globals (NeoPixel.new 64) Main.BT)
              (Button.init 0)
              (Main.mk_animator (replicate 64 Color.zero) (replicate 64 Color.zero) 0)
              (tape_of [1; 2; 3; 4]) in
  let i := Main.mk_inputs (Button.mk_sample 0 10 10) 10 10 [0x03; 1; 2; 3]
             (replicate 256 0) in
  Main.anim (Main.loop fw i).1 = Main.anim fw /\
  Main.prng (Main.loop fw i).1 = Main.prng fw /\
  (Main.loop fw i).2 = [0x03; 0x00].
Proof.
  intros fw i. rewrite (loop_in_BT fw i eq_refl eq_refl).
  split; [reflexivity|]. split; [reflexivity|]. vm_compute. reflexivity.
Defined.

(** * Further properties of the code *)

(** ** color.h *)

Lemma toward_eq_iff x t k :
  Color.toward x t k = t <-> Z.abs (t - x) <= Z.of_nat k.
Proof. unfold Color.toward. split; intros H; nia. Qed.

(** X1: with a fixed target, the target is reached after exactly
    [max(|dr|, |dg|, |db|)] calls of [fadeTo]: not before, and from then
    on the color stays there. *)
Theorem fade_iter_reaches_exactly (x c : Color.color_t) (k : nat) :
  Color.wf x -> Color.wf c ->
  (Color.fade_iter k x c = c <-> Color.dist x c <= Z.of_nat k).
Proof.
  intros Hx Hc. rewrite fade_iter_closed by assumption.
  destruct c as [cr cg cb]. unfold Color.dist. simpl.
  pose proof (toward_eq_iff (Color.r x) cr k) as Hr.
  pose proof (toward_eq_iff (Color.g x) cg k) as Hg.
  pose proof (toward_eq_iff (Color.b x) cb k) as Hb.
  split.
  - intros H. injection H as H1 H2 H3.
    apply Hr in H1. apply Hg in H2. apply Hb in H3. lia.
  - intros H. f_equal; [apply Hr|apply Hg|apply Hb]; lia.
Qed.

Lemma fade_iter_reaches_exactly_witness :
  Color.fade_iter 9 (Color.mk 10 200 0) (Color.mk 13 190 0) <> Color.mk 13 190 0 /\
  Color.fade_iter 10 (Color.mk 10 200 0) (Color.mk 13 190 0) = Color.mk 13 190 0.
Proof.
  assert (Hx : Color.wf (Color.mk 10 200 0)) by (repeat split; simpl; lia).
  assert (Hc : Color.wf (Color.mk 13 190 0)) by (repeat split; simpl; lia).
  split.
  - intros H. apply (fade_iter_reaches_exactly _ _ 9%nat Hx Hc) in H.
    vm_compute in H. apply H. reflexivity.
  - apply (fade_iter_reaches_exactly _ _ 10%nat Hx Hc). vm_compute. discriminate.
Defined.

Lemma eqb_eq x c : Color.eqb x c = true <-> x = c.
Proof.
  unfold Color.eqb. destruct x as [xr xg xb], c as [cr cg cb]. simpl.
  rewrite !andb_true_iff, !Z.eqb_eq. split.
  - intros [[-> ->] ->]. reflexivity.
  - intros H. injection H as -> -> ->. auto.
Qed.

(** X2: [operator==] holds exactly for equal colors, and [fadeTo]
    leaves a color as it is exactly when [operator==] holds: the test
    [current[i] == target[i]] of the animator is the test for "nothing
    left to fade". *)
Theorem fadeTo_idle_iff_equal (x c : Color.color_t) :
  Color.wf x -> Color.wf c ->
  (Color.eqb x c = true <-> x = c) /\
  (Color.fadeTo x c = x <-> Color.eqb x c = true).
Proof.
  intros (Hxr & Hxg & Hxb) (Hcr & Hcg & Hcb).
  split; [apply eqb_eq|]. rewrite eqb_eq.
  destruct x as [xr xg xb], c as [cr cg cb]. simpl in *.
  unfold Color.fadeTo. simpl.
  rewrite !fade_channel_step by assumption. split.
  - intros H. injection H as H1 H2 H3. f_equal; lia.
  - intros H. injection H as -> -> ->. rewrite !Z.sub_diag. simpl.
    f_equal; lia.
Qed.

Lemma fadeTo_idle_iff_equal_witness :
  Color.fadeTo (Color.mk 1 2 3) (Color.mk 1 2 3) = Color.mk 1 2 3 /\
  Color.eqb (Color.mk 1 2 3) (Color.mk 1 2 4) = false.
Proof.
  assert (Hx : Color.wf (Color.mk 1 2 3)) by (repeat split; simpl; lia).
  split.
  - apply (fadeTo_idle_iff_equal _ _ Hx Hx). reflexivity.
  - reflexivity.
Defined.

(** X3: the conversion [operator uint32_t] loses nothing: unpacking the
    packed value gives the three channels back, so two colors with the
    same packed value are equal. *)
Theorem color_to_uint32_round_trip (c c' : Color.color_t) :
  Color.wf c -> Color.wf c' ->
  NeoPixel.unpack (color_to_uint32 c) = color_rgb c /\
  (color_to_uint32 c = color_to_uint32 c' -> c = c').
Proof.
  intros (Hr & Hg & Hb) (Hr' & Hg' & Hb').
  assert (Hu : NeoPixel.unpack (color_to_uint32 c) = color_rgb c).
  { unfold color_to_uint32, color_rgb. rewrite unpack_Color by assumption.
    reflexivity. }
  assert (Hu' : NeoPixel.unpack (color_to_uint32 c') = color_rgb c').
  { unfold color_to_uint32, color_rgb. rewrite unpack_Color by assumption.
    reflexivity. }
  split; [exact Hu|]. intros E. rewrite E, Hu' in Hu.
  destruct c, c'. unfold color_rgb in Hu. simpl in Hu.
  injection Hu as -> -> ->. reflexivity.
Qed.

Lemma color_to_uint32_round_trip_witness :
  NeoPixel.unpack (color_to_uint32 (Color.mk 255 128 7)) = (255, 128, 7).
Proof.
  assert (Hx : Color.wf (Color.mk 255 128 7)) by (repeat split; simpl; lia).
  exact (proj1 (color_to_uint32_round_trip _ _ Hx Hx)).
Defined.

Lemma random_advances howbig s :
  howbig <> 0 ->
  tape (random howbig s).2 = tape s /\
  cursor (random howbig s).2 = S (cursor s).
Proof.
  intros H. unfold random. destruct (Z.eqb_spec howbig 0); [contradiction|].
  simpl. auto.
Qed.

Lemma getRnd_advances high s :
  is_byte (Color.getRnd high s).1 /\
  tape (Color.getRnd high s).2 = tape s /\
  cursor (Color.getRnd high s).2 = S (cursor s).
Proof.
  unfold Color.getRnd.
  destruct (random_advances (if high then 256 else 8) s) as [Ht Hc];
    [destruct high; lia|].
  destruct (random (if high then 256 else 8) s) as [v s']. simpl in *.
  split; [apply uint8_range|auto].
Qed.

Lemma setRandom_advances (s : rng) :
  Color.wf (Color.setRandom s).1 /\
  tape (Color.setRandom s).2 = tape s /\
  cursor (Color.setRandom s).2 = (cursor s + 4)%nat.
Proof.
  unfold Color.setRandom.
  destruct (random_advances 3 s) as [Ht0 Hc0]; [lia|].
  destruct (random 3 s) as [color s0]. simpl in Ht0, Hc0.
  destruct (getRnd_advances (color =? 0) s0) as (Hb1 & Ht1 & Hc1).
  destruct (Color.getRnd (color =? 0) s0) as [r' s1]. simpl in Hb1, Ht1, Hc1.
  destruct (getRnd_advances (color =? 1) s1) as (Hb2 & Ht2 & Hc2).
  destruct (Color.getRnd (color =? 1) s1) as [g' s2]. simpl in Hb2, Ht2, Hc2.
  destruct (getRnd_advances (color =? 2) s2) as (Hb3 & Ht3 & Hc3).
  destruct (Color.getRnd (color =? 2) s2) as [b' s3]. simpl in Hb3, Ht3, Hc3.
  simpl. split; [split; [|split]; assumption|].
  split; [congruence|]. rewrite Hc3, Hc2, Hc1, Hc0. lia.
Qed.

(** X4: whatever the random source returns, [setRandom] yields a color
    of three bytes and takes exactly four values from the source. *)
Theorem setRandom_four_draws (s : rng) :
  Color.wf (Color.setRandom s).1 /\
  tape (Color.setRandom s).2 = tape s /\
  cursor (Color.setRandom s).2 = (cursor s + 4)%nat.
Proof. apply setRandom_advances. Qed.

(** ** Button.cpp *)

(** What an elapsed call returns and leaves behind, in one equation. *)
Lemma read_elapsed st i :
  Button.elapsed st i = true ->
  Button.read st i =
  (if Button.wasPressed st && Button.mayReturn st
   then (if Button.level i =? 0 then Button.PRESSED_CONTINUOUSLY else Button.PRESSED)
   else Button.RELEASED,
   Button.mk (Button.now_set i) (Button.level i =? 0)
     (negb (Button.wasPressed st))).
Proof.
  intros He. destruct (Button.wasPressed st) eqn:Hw.
  - rewrite read_was_down by assumption. simpl. reflexivity.
  - rewrite read_was_up by assumption. reflexivity.
Qed.

(** X5: [Button::read] reports [PRESSED] only in a call that sees the
    button up after a window that saw it down (the press is reported at
    its release), and [PRESSED_CONTINUOUSLY] only in a call that sees it
    down after a window that saw it down; both need an elapsed window and
    [mayReturn].  After every elapsed call [wasPressed] is the level just
    read and [read] is the stored clock value. *)
Theorem Button_read_reports (st : Button.statics) (i : Button.sample) :
  ((Button.read st i).1 = Button.PRESSED <->
   Button.elapsed st i = true /\ Button.wasPressed st = true /\
   Button.mayReturn st = true /\ Button.level i <> 0) /\
  ((Button.read st i).1 = Button.PRESSED_CONTINUOUSLY <->
   Button.elapsed st i = true /\ Button.wasPressed st = true /\
   Button.mayReturn st = true /\ Button.level i = 0) /\
  (Button.elapsed st i = true ->
   Button.wasPressed (Button.read st i).2 = (Button.level i =? 0) /\
   Button.read_at (Button.read st i).2 = Button.now_set i).
Proof.
  destruct (Button.elapsed st i) eqn:He.
  - rewrite read_elapsed by assumption. simpl.
    destruct (Button.wasPressed st), (Button.mayReturn st); simpl;
      destruct (Z.eqb_spec (Button.level i) 0) as [E|E];
      (split; [|split]);
      try (split; [intros H; try discriminate H; auto
                  |intros (_ & H1 & H2 & H3); congruence]);
      auto.
  - rewrite read_not_elapsed by assumption. simpl.
    split; [|split].
    + split; [discriminate|intros (H & _); discriminate].
    + split; [discriminate|intros (H & _); discriminate].
    + discriminate.
Qed.

Lemma read_unarmed st j :
  Button.mayReturn st = false -> (Button.read st j).1 = Button.RELEASED.
Proof.
  intros Hm. destruct (Button.elapsed st j) eqn:He.
  - rewrite read_elapsed by assumption. rewrite Hm, andb_false_r. reflexivity.
  - rewrite read_not_elapsed by assumption. reflexivity.
Qed.

(** X6: [Button::read] never reports in two calls in a row: after a
    call that returned [PRESSED] or [PRESSED_CONTINUOUSLY], the next
    call returns [RELEASED], whatever the pin and the clock. *)
Theorem Button_read_no_two_reports (st : Button.statics) (i j : Button.sample) :
  (Button.read st i).1 <> Button.RELEASED ->
  (Button.read (Button.read st i).2 j).1 = Button.RELEASED.
Proof.
  intros H. apply read_unarmed.
  destruct (Button.elapsed st i) eqn:He;
    [|rewrite read_not_elapsed in H by assumption; contradiction].
  rewrite (read_elapsed st i He) in H |- *. cbn [fst snd Button.mayReturn] in *.
  destruct (Button.wasPressed st); [reflexivity|].
  cbn [andb] in H. contradiction.
Qed.

Lemma Button_read_no_two_reports_witness :
  let st := Button.mk 0 true true in
  let i := Button.mk_sample 0 300 300 in
  let j := Button.mk_sample 0 600 600 in
  (Button.read st i).1 = Button.PRESSED_CONTINUOUSLY /\
  (Button.read (Button.read st i).2 j).1 = Button.RELEASED.
Proof.
  intros st i j. split; [reflexivity|].
  apply (Button_read_no_two_reports st i j). vm_compute. discriminate.
Defined.

(** X7: the window test survives the roll-over of [millis()]: with the
    last evaluation at clock value [read] and [d] milliseconds gone by
    (fewer than 2^32), also across the wrap of the 32-bit clock, the
    window has elapsed exactly when [d > 200]. *)
Theorem Button_elapsed_across_rollover (st : Button.statics) (i : Button.sample) (d : Z) :
  0 <= Button.read_at st < 2 ^ 32 -> 0 <= d < 2 ^ 32 ->
  Button.now_cond i = uint32 (Button.read_at st + d) ->
  Button.elapsed st i = (d >? 200).
Proof.
  intros Hr Hd Hn. unfold Button.elapsed. rewrite Hn. f_equal.
  unfold uint32. rewrite Zminus_mod_idemp_l.
  replace (Button.read_at st + d - Button.read_at st) with d by lia.
  apply Z.mod_small. lia.
Qed.

Lemma Button_elapsed_across_rollover_witness :
  Button.elapsed (Button.mk 4294967290 false true) (Button.mk_sample 1 200 200)
  = true.
Proof.
  apply (Button_elapsed_across_rollover
           (Button.mk 4294967290 false true) (Button.mk_sample 1 200 200) 206);
    [simpl; lia|lia|reflexivity].
Defined.

Lemma Button_read_reports_witness :
  let st := Button.mk 0 true true in
  (Button.read st (Button.mk_sample 1 300 300)).1 = Button.PRESSED /\
  (Button.read st (Button.mk_sample 0 300 300)).1 = Button.PRESSED_CONTINUOUSLY /\
  Button.wasPressed (Button.read st (Button.mk_sample 1 300 350)).2 = false /\
  Button.read_at (Button.read st (Button.mk_sample 1 300 350)).2 = 350.
Proof.
  intros st.
  destruct (Button_read_reports st (Button.mk_sample 1 300 300)) as (H1 & _ & _).
  destruct (Button_read_reports st (Button.mk_sample 0 300 300)) as (_ & H2 & _).
  destruct (Button_read_reports st (Button.mk_sample 1 300 350)) as (_ & _ & H3).
  split; [|split].
  - apply H1. repeat split; try reflexivity. simpl. lia.
  - apply H2. repeat split; reflexivity.
  - apply H3. reflexivity.
Defined.

(** ** randomColors *)

(** The body of the loop for pixel [k], when the pixels below [k] are
    done. *)
Lemma randomColors_pixel_next (k : nat) (a0 a : anim_acc) :
  (k < length a0.1.1.1)%nat ->
  length a0.1.1.2 = length a0.1.1.1 ->
  length (NeoPixel.pixels a0.1.2) = length a0.1.1.1 ->
  animated_upto k a0 a ->
  animated_upto (S k) a0 (Main.randomColors_pixel a (Z.of_nat k)).
Proof.
  destruct a0 as [[[cur0 tgt0] L0] s0], a as [[[cur tgt] L] s].
  unfold animated_upto. cbn [fst snd].
  intros Hk Ht0 Hp0 (Hlc & Hlt & Hlp & Hst & Htape & Hcur & Hlow & Hhigh).
  destruct (Hhigh k (le_n k)) as (Hck & Htk & Hpk).
  unfold Main.randomColors_pixel. rewrite Nat2Z.id, Hck, Htk.
  cbn [arrived_upto].
  destruct (setRandom_advances s) as (Hwf & Htp & Hcs).
  set (t1 := if Color.eqb (cur0 !!! k) (tgt0 !!! k)
             then Color.setRandom s else (tgt0 !!! k, s)).
  assert (Hs1 : tape t1.2 = tape s0 /\
                cursor t1.2 =
                  (cursor s0 + 4 * (arrived_upto k cur0 tgt0 +
                     (if Color.eqb (cur0 !!! k) (tgt0 !!! k) then 1 else 0)))%nat).
  { unfold t1. destruct (Color.eqb (cur0 !!! k) (tgt0 !!! k)); simpl.
    - rewrite Htp, Hcs, Htape, Hcur. split; [reflexivity|lia].
    - rewrite Htape, Hcur. split; [reflexivity|lia]. }
  assert (Ht1 : Color.eqb (cur0 !!! k) (tgt0 !!! k) = false -> t1.1 = tgt0 !!! k).
  { unfold t1. intros ->. reflexivity. }
  destruct t1 as [ti s1]. cbn [fst snd] in *.
  set (ci := Color.fadeTo (cur0 !!! k) ti).
  assert (HL : NeoPixel.pixels
                 (NeoPixel.setPixelColor L (Z.of_nat k)
                    (Color.r ci) (Color.g ci) (Color.b ci)) =
               <[k := color_rgb ci]> (NeoPixel.pixels L) /\
               NeoPixel.strip
                 (NeoPixel.setPixelColor L (Z.of_nat k)
                    (Color.r ci) (Color.g ci) (Color.b ci)) = NeoPixel.strip L).
  { rewrite pixels_setPixelColor by lia. rewrite Nat2Z.id. split; [reflexivity|].
    unfold NeoPixel.setPixelColor. destruct (_ <? _); reflexivity. }
  destruct HL as [HLp HLs]. rewrite HLp, HLs, !length_insert.
  destruct Hs1 as [Hs1t Hs1c].
  repeat (split; [assumption|]).
  split.
  - intros j Hj. destruct (decide (j = k)) as [->|Hne].
    + rewrite !list_lookup_total_insert_eq by lia. auto.
    + rewrite !list_lookup_total_insert_ne by auto.
      apply Hlow. lia.
  - intros j Hj. rewrite !list_lookup_total_insert_ne by lia.
    apply Hhigh. lia.
Qed.

Lemma randomColors_loop (k : nat) (a0 : anim_acc) :
  (k <= length a0.1.1.1)%nat ->
  length a0.1.1.2 = length a0.1.1.1 ->
  length (NeoPixel.pixels a0.1.2) = length a0.1.1.1 ->
  animated_upto k a0 (foldl Main.randomColors_pixel a0 (seqZ 0 (Z.of_nat k))).
Proof.
  intros Hk Ht Hp. induction k as [|k IH].
  - unfold animated_upto. change (seqZ 0 (Z.of_nat 0)) with (@nil Z).
    cbn [foldl arrived_upto].
    do 5 (split; [reflexivity|]). split; [lia|].
    split; [intros j Hj; lia|intros j _; auto].
  - rewrite seqZ_S, foldl_app. cbn [foldl]. rewrite Z.add_0_l.
    apply randomColors_pixel_next; try assumption. apply IH. lia.
Qed.

(** X8: [randomColors] is rate-limited.  Once it has run (its [delay]
    is not 0), a call made [d] milliseconds after the stored time does
    nothing at all when [d <= 50] and runs when [d > 50], also across the
    roll-over of the 32-bit clock; a call that runs stores the clock
    value.  While [delay] is 0, which is also what a stored clock value
    of 0 leaves behind, every call runs whatever the clock says. *)
Theorem randomColors_rate_limit
    (a : Main.animator) (L : NeoPixel.t) (s : rng) (d now_set : Z) :
  0 <= Main.delay a < 2 ^ 32 -> 0 <= d < 2 ^ 32 ->
  let now_cond := uint32 (Main.delay a + d) in
  (Main.delay a <> 0 -> d <= 50 ->
   Main.randomColors a L s now_cond now_set = (a, L, s)) /\
  (Main.delay a = 0 \/ 50 < d ->
   Main.delay (Main.randomColors a L s now_cond now_set).1.1 = now_set) /\
  (Main.delay a = 0 ->
   forall t, Main.delay (Main.randomColors a L s t now_set).1.1 = now_set).
Proof.
  intros Ha Hd now_cond.
  assert (Hel : uint32 (now_cond - Main.delay a) = d).
  { unfold now_cond, uint32. rewrite Zminus_mod_idemp_l.
    replace (Main.delay a + d - Main.delay a) with d by lia.
    apply Z.mod_small. lia. }
  assert (Hrun : forall t,
            (Main.delay a =? 0) || (uint32 (t - Main.delay a) >? Main.DELAY) = true ->
            Main.delay (Main.randomColors a L s t now_set).1.1 = now_set).
  { intros t Hc. unfold Main.randomColors. rewrite Hc. cbn [negb].
    destruct (foldl _ _ _) as [[[cur tgt] L'] s']. reflexivity. }
  split; [|split].
  - intros Hne Hle. unfold Main.randomColors. rewrite Hel.
    destruct (Z.eqb_spec (Main.delay a) 0); [contradiction|].
    unfold Main.DELAY. destruct (Z.gtb_spec d 50); [lia|]. reflexivity.
  - intros Hor. apply Hrun. rewrite Hel. unfold Main.DELAY.
    destruct Hor as [H0|Hgt].
    + rewrite H0. reflexivity.
    + destruct (Z.gtb_spec d 50); [|lia]. apply orb_true_r.
  - intros H0 t. apply Hrun. rewrite H0. reflexivity.
Qed.

Lemma randomColors_rate_limit_witness :
  let a := Main.mk_animator [Color.mk 1 1 1] [Color.mk 1 1 9] 4294967290 in
  let L := NeoPixel.new 64 in
  Main.randomColors a L (tape_of []) 44 44 = (a, L, tape_of []) /\
  Main.delay (Main.randomColors a L (tape_of []) 45 45).1.1 = 45 /\
  Main.delay (Main.randomColors (Main.mk_animator [] [] 0) L (tape_of []) 7 8).1.1 = 8.
Proof.
  intros a L.
  assert (Ha : 0 <= Main.delay a < 2 ^ 32) by (simpl; lia).
  split; [|split].
  - destruct (randomColors_rate_limit a L (tape_of []) 50 44 Ha ltac:(lia))
      as (H & _ & _).
    apply H; [discriminate|lia].
  - destruct (randomColors_rate_limit a L (tape_of []) 51 45 Ha ltac:(lia))
      as (_ & H & _).
    apply H. right. lia.
  - destruct (randomColors_rate_limit (Main.mk_animator [] [] 0) L (tape_of [])
                0 8 ltac:(simpl; lia) ltac:(lia)) as (_ & _ & H).
    apply H. reflexivity.
Defined.

(** X9: a call of [randomColors] that runs, on [LED_COUNT] pixels,
    moves every current color one [fadeTo] step toward its target,
    redraws the target of a pixel only if the pixel had arrived, leaves
    the driver's pixel [j] at the new current color of [j], and shows the
    buffer on the strip once at the end. *)
Theorem randomColors_step
    (a : Main.animator) (L : NeoPixel.t) (s : rng) (now_cond now_set : Z) :
  length (Main.current a) = 64%nat -> length (Main.target a) = 64%nat ->
  NeoPixel.numLEDs L = Main.LED_COUNT ->
  (Main.delay a =? 0) || (uint32 (now_cond - Main.delay a) >? Main.DELAY) = true ->
  let res := Main.randomColors a L s now_cond now_set in
  let a' := res.1.1 in
  let L' := res.1.2 in
  length (Main.current a') = 64%nat /\ length (Main.target a') = 64%nat /\
  NeoPixel.numLEDs L' = Main.LED_COUNT /\
  NeoPixel.strip L' = NeoPixel.pixels L' /\
  forall j : nat, (j < 64)%nat ->
    Main.current a' !!! j =
      Color.fadeTo (Main.current a !!! j) (Main.target a' !!! j) /\
    (Color.eqb (Main.current a !!! j) (Main.target a !!! j) = false ->
     Main.target a' !!! j = Main.target a !!! j) /\
    NeoPixel.pixels L' !!! j = color_rgb (Main.current a' !!! j).
Proof.
  intros Hc Ht HN Hrun res a' L'.
  unfold NeoPixel.numLEDs, Main.LED_COUNT in HN.
  assert (HN' : length (NeoPixel.pixels L) = 64%nat) by lia.
  pose proof (randomColors_loop 64 (Main.current a, Main.target a, L, s)) as H.
  cbn [fst snd] in H. specialize (H ltac:(lia) ltac:(lia) ltac:(lia)).
  unfold a', L', res, Main.randomColors. rewrite Hrun. cbn [negb].
  change Main.LED_COUNT with (Z.of_nat 64).
  destruct (foldl _ _ _) as [[[cur tgt] L1] s1].
  destruct H as (Hlc & Hlt & Hlp & Hst & Htape & Hcur & Hlow & Hhigh).
  cbn [fst snd] in *.
  cbn [Main.current Main.target NeoPixel.show NeoPixel.pixels NeoPixel.strip].
  split; [lia|]. split; [lia|].
  split; [unfold NeoPixel.numLEDs, NeoPixel.show; cbn [NeoPixel.pixels]; lia|].
  split; [reflexivity|]. intros j Hj. apply Hlow. exact Hj.
Qed.

Lemma randomColors_step_witness :
  let a := (Main.anim (Main.boot 0 (tape_of []))) in
  let res := Main.randomColors a (NeoPixel.new 64) (tape_of [1; 9; 300; 5]) 0 10 in
  Main.target res.1.1 !!! 0%nat = Color.mk 1 44 5 /\
  Main.current res.1.1 !!! 0%nat = Color.mk 1 1 1 /\
  NeoPixel.pixels res.1.2 !!! 0%nat = (1, 1, 1).
Proof.
  intros a res.
  destruct (randomColors_step a (NeoPixel.new 64) (tape_of [1; 9; 300; 5]) 0 10
              eq_refl eq_refl eq_refl eq_refl) as (_ & _ & _ & _ & H).
  destruct (H 0%nat ltac:(lia)) as (H1 & _ & H3).
  split; [vm_compute; reflexivity|]. split.
  - etransitivity; [exact H1|vm_compute; reflexivity].
  - etransitivity; [exact H3|vm_compute; reflexivity].
Defined.

(** X10: a call of [randomColors] that runs takes exactly four values
    from the random source for each pixel whose current color equals its
    target, and none for the others. *)
Theorem randomColors_draws
    (a : Main.animator) (L : NeoPixel.t) (s : rng) (now_cond now_set : Z) :
  length (Main.current a) = 64%nat -> length (Main.target a) = 64%nat ->
  NeoPixel.numLEDs L = Main.LED_COUNT ->
  (Main.delay a =? 0) || (uint32 (now_cond - Main.delay a) >? Main.DELAY) = true ->
  let s' := (Main.randomColors a L s now_cond now_set).2 in
  tape s' = tape s /\
  cursor s' = (cursor s + 4 * arrived_upto 64 (Main.current a) (Main.target a))%nat.
Proof.
  intros Hc Ht HN Hrun s'.
  unfold NeoPixel.numLEDs, Main.LED_COUNT in HN.
  pose proof (randomColors_loop 64 (Main.current a, Main.target a, L, s)) as H.
  cbn [fst snd] in H. specialize (H ltac:(lia) ltac:(lia) ltac:(lia)).
  unfold s', Main.randomColors. rewrite Hrun. cbn [negb].
  change Main.LED_COUNT with (Z.of_nat 64).
  destruct (foldl _ _ _) as [[[cur tgt] L1] s1].
  destruct H as (_ & _ & _ & _ & Htape & Hcur & _).
  cbn [fst snd] in *. split; assumption.
Qed.

Lemma randomColors_draws_witness :
  let a := Main.mk_animator (replicate 64 (Color.mk 1 1 1))
             (<[3%nat := Color.mk 1 1 1]> (replicate 64 (Color.mk 9 9 9))) 0 in
  cursor (Main.randomColors a (NeoPixel.new 64) (tape_of []) 0 10).2 = 4%nat.
Proof.
  intros a.
  destruct (randomColors_draws a (NeoPixel.new 64) (tape_of []) 0 10
              eq_refl eq_refl eq_refl eq_refl) as (_ & H).
  rewrite H. reflexivity.
Defined.

(** ** The drain loop *)

Lemma drain_app pre : forall rest f G,
  Main.drain (pre ++ rest) f G =
  match Main.drain pre f G with
  | (Some f', G') => Main.drain rest f' G'
  | (None, G') => (None, G')
  end.
Proof.
  induction pre as [|d pre IH]; intros rest f G; [reflexivity|].
  cbn [app Main.drain]. destruct (d <? 0); [reflexivity|].
  destruct (Main.iteration f d G) as [f1 G1]. apply IH.
Qed.

Lemma drain_bytes_total input : forall f G,
  Forall is_byte input -> exists f' G', Main.drain input f G = (Some f', G').
Proof.
  induction input as [|d input IH]; intros f G Hin; [eauto|].
  inversion Hin as [|? ? Hd Hrest]; subst.
  rewrite drain_cons by (unfold is_byte in Hd; lia). apply IH. exact Hrest.
Qed.

(** X11: a negative result of [btSer.read()] ends [loop()] at once: no
    response is written, whatever the status was, the bytes after it are
    not looked at, and the LEDs and the mode stay as the bytes before it
    left them (their writes are not undone). *)
Theorem read_error_aborts_frame (pre rest stack : list Z) (d : Z) (G : Main.globals) :
  Forall is_byte pre -> d < 0 ->
  Main.loop_serial (pre ++ d :: rest) stack G =
  ((Main.drain pre (Main.fresh stack) G).2, []).
Proof.
  intros Hpre Hd.
  destruct (drain_bytes_total pre (Main.fresh stack) G Hpre) as (f' & G' & E).
  unfold Main.loop_serial.
  destruct (pre ++ d :: rest) as [|x l] eqn:El;
    [destruct pre; discriminate El|].
  rewrite <- El, drain_app, E. cbn [Main.drain snd].
  destruct (Z.ltb_spec d 0); [reflexivity|lia].
Qed.

Lemma read_error_aborts_frame_witness :
  let G := Main.mk_globals (NeoPixel.new 64) Main.RANDOM in
  let res := Main.loop_serial ([0x02; 5; 255; 0; 0] ++ (-1) :: [7]) (replicate 256 0) G in
  res.2 = [] /\ Main.mode res.1 = Main.BT /\
  NeoPixel.pixels (Main.leds res.1) !! 5%nat = Some (255, 0, 0).
Proof.
  intros G res.
  pose proof (read_error_aborts_frame [0x02; 5; 255; 0; 0] [7] (replicate 256 0)
                (-1) G ltac:(bytes) ltac:(lia)) as H.
  fold res in H. rewrite H. repeat split.
Defined.

(** X12: the command of a frame is fixed by the first byte that is a
    command tag: whatever bytes follow, [cmd] at the end of the drain
    loop is that tag, and it is [NONE] when no byte is a tag. *)
Theorem command_is_first_tag (input stack : list Z) (G G' : Main.globals) (f : Main.frame) :
  Main.drain input (Main.fresh stack) G = (Some f, G') ->
  Main.cmd f = Main.first_tag input.
Proof.
  assert (Hgen : forall input f0 G f G',
            Main.drain input f0 G = (Some f, G') ->
            Main.cmd f = match Main.cmd f0 with
                         | Main.NONE => Main.first_tag input
                         | c => c
                         end).
  { clear. induction input as [|d input IH]; intros f0 G f G' E.
    - simpl in E. injection E as <- _. simpl. destruct (Main.cmd f0); reflexivity.
    - cbn [Main.drain] in E. destruct (d <? 0); [discriminate|].
      destruct (Main.iteration f0 d G) as [f1 G1] eqn:E1.
      apply IH in E. rewrite E.
      pose proof (iteration_fst f0 d G) as H1. rewrite E1 in H1. cbn [fst] in H1.
      rewrite H1. cbn [Main.set_count Main.cmd]. rewrite dispatch_cmd.
      cbn [Main.first_tag].
      destruct (Main.cmd f0); try reflexivity. }
  intros E. apply Hgen in E. exact E.
Qed.

Lemma command_is_first_tag_witness :
  let G := Main.mk_globals (NeoPixel.new 64) Main.RANDOM in
  exists f G', Main.drain [9; 3; 1; 2] (Main.fresh []) G = (Some f, G') /\
               Main.cmd f = Main.SET_LEDS_ALL.
Proof.
  intros G.
  destruct (Main.drain [9; 3; 1; 2] (Main.fresh []) G) as [[f|] G'] eqn:E.
  - exists f, G'. split; [reflexivity|].
    exact (command_is_first_tag _ _ _ _ _ E).
  - vm_compute in E. discriminate E.
Defined.

(** Bytes that a handler only counts: the frame and the globals stay as
    they are while [count] runs on. *)
Lemma drain_idle (c0 : Main.cmd_t) st d lo :
  (forall c data G, lo <= c < 32767 -> is_byte data ->
     Main.iteration (Main.mk_frame c c0 st d) data G =
     (Main.mk_frame (c + 1) c0 st d, G)) ->
  forall l c G,
    lo <= c -> c + Z.of_nat (length l) <= 32767 -> Forall is_byte l ->
    Main.drain l (Main.mk_frame c c0 st d) G =
    (Some (Main.mk_frame (c + Z.of_nat (length l)) c0 st d), G).
Proof.
  intros Hstep. induction l as [|x l IH]; intros c G Hlo Hhi Hl.
  - simpl. rewrite Z.add_0_r. reflexivity.
  - inversion Hl as [|? ? Hx Hl']; subst.
    cbn [length] in Hhi |- *. rewrite Nat2Z.inj_succ in Hhi |- *.
    rewrite drain_cons by (unfold is_byte in Hx; lia).
    rewrite Hstep by (auto; lia). cbn [fst snd].
    rewrite IH by (auto; lia). do 3 f_equal. lia.
Qed.

Lemma iteration_GET_extra st d c data G :
  1 <= c < 32767 -> is_byte data ->
  Main.iteration (Main.mk_frame c Main.GET_LEDS st d) data G =
  (Main.mk_frame (c + 1) Main.GET_LEDS st d, G).
Proof.
  intros Hc _. unfold Main.iteration, Main.dispatch, Main.cmdGetLeds.
  cbn [Main.cmd Main.count Main.state].
  destruct (Z.ltb_spec c 0); [lia|]. destruct (Z.eqb_spec c 0); [lia|].
  cbn [andb fst snd Main.set_count Main.count Main.cmd Main.state Main.ledData].
  rewrite int16_id by lia. reflexivity.
Qed.

Lemma iteration_SET_extra st d c data G :
  Main.LED_COUNT * 4 <= c < 32767 -> is_byte data ->
  Main.iteration (Main.mk_frame c Main.SET_LEDS st d) data G =
  (Main.mk_frame (c + 1) Main.SET_LEDS st d, G).
Proof.
  unfold Main.LED_COUNT. intros Hc _.
  unfold Main.iteration, Main.dispatch, Main.cmdSetLeds.
  cbn [Main.cmd Main.count Main.state].
  destruct (Z.ltb_spec c 0); [lia|].
  destruct (Z.ltb_spec c (Main.LED_COUNT * 4)); [unfold Main.LED_COUNT in *; lia|].
  cbn [andb fst snd Main.set_count Main.count Main.cmd Main.state Main.ledData].
  rewrite int16_id by lia. reflexivity.
Qed.

Lemma iteration_SET_ALL_extra st d c data G :
  3 <= c < 32767 -> is_byte data ->
  Main.iteration (Main.mk_frame c Main.SET_LEDS_ALL st d) data G =
  (Main.mk_frame (c + 1) Main.SET_LEDS_ALL st d, G).
Proof.
  intros Hc _. unfold Main.iteration, Main.dispatch, Main.cmdSetLedsAll.
  cbn [Main.cmd Main.count Main.state].
  destruct (Z.ltb_spec c 0); [lia|]. destruct (Z.ltb_spec c 3); [lia|].
  cbn [andb fst snd Main.set_count Main.count Main.cmd Main.state Main.ledData].
  rewrite int16_id by lia. reflexivity.
Qed.

(** X13: a GET_LEDS frame with extra bytes behind the tag is answered
    like the bare frame [0x01]: the extra bytes (up to a frame of 32767
    bytes) are consumed and dropped, and the LEDs and the mode are left
    untouched. *)
Theorem GET_LEDS_ignores_extra_bytes (extra stack : list Z) (G : Main.globals) :
  Main.wf_globals G -> length stack = 256%nat ->
  Forall is_byte extra -> Z.of_nat (length extra) < 32767 ->
  Main.loop_serial (0x01 :: extra) stack G =
  (G, [0x01; 0x00] ++ Main.quadruples (NeoPixel.pixels (Main.leds G))).
Proof.
  intros HG Hstack Hex Hlen. pose proof HG as [HN HW].
  unfold Main.loop_serial.
  rewrite drain_cons by lia. rewrite iteration_GET_first.
  rewrite snapshot_spec by assumption. cbn [fst snd].
  rewrite (drain_idle Main.GET_LEDS Main.OK _ 1) by
    (auto; try lia; intros; apply iteration_GET_extra; auto).
  cbn [Main.respond Main.state Main.cmd Main.ledData].
  unfold Main.btRespond. rewrite take_ge; [reflexivity|].
  unfold Main.quadruples. rewrite length_quadruples_from.
  unfold NeoPixel.numLEDs, Main.LED_COUNT in *. lia.
Qed.

Lemma GET_LEDS_ignores_extra_bytes_witness :
  let G := Main.mk_globals (NeoPixel.new 64) Main.BT in
  Main.loop_serial [0x01; 2; 5; 255; 0; 0] (replicate 256 9) G =
  (G, [0x01; 0x00] ++ Main.quadruples (replicate 64 (0, 0, 0))).
Proof.
  intros G.
  apply (GET_LEDS_ignores_extra_bytes [2; 5; 255; 0; 0] (replicate 256 9) G
           (wf_globals_new Main.BT) eq_refl ltac:(bytes) ltac:(simpl; lia)).
Defined.

(** ** Whole SET_LEDS and SET_LEDS_ALL frames *)

(** Up to three bytes of an unfinished group are stored and nothing
    else happens. *)
Lemma drain_SET_tail l : forall k st d G,
  0 <= k < Main.LED_COUNT -> Main.accepting st = true ->
  Forall is_byte l -> (length l < 4)%nat ->
  exists d', length d' = length d /\
    Main.drain l (Main.mk_frame (k * 4) Main.SET_LEDS st d) G =
    (Some (Main.mk_frame (k * 4 + Z.of_nat (length l)) Main.SET_LEDS st d'), G).
Proof.
  intros k st d G Hk Hst Hl Hlen. unfold Main.LED_COUNT in Hk.
  assert (Hstep : forall c x d0,
            k * 4 <= c < k * 4 + 3 -> is_byte x ->
            Main.iteration (Main.mk_frame c Main.SET_LEDS st d0) x G =
            (Main.mk_frame (c + 1) Main.SET_LEDS st (<[Z.to_nat c := x]> d0), G)).
  { intros c x d0 Hc Hx. apply iteration_SET_partial; auto.
    - unfold Main.LED_COUNT. lia.
    - Z.quot_rem_to_equations. lia. }
  destruct l as [|x0 [|x1 [|x2 [|x3 l]]]]; try (simpl in Hlen; lia).
  - exists d. split; [reflexivity|]. simpl. rewrite Z.add_0_r. reflexivity.
  - inversion Hl as [|? ? H0 _]; subst.
    eexists. split; [|rewrite drain_cons, Hstep by (unfold is_byte in *; auto; lia);
                      reflexivity].
    rewrite length_insert. reflexivity.
  - inversion Hl as [|? ? H0 Hl1]; subst. inversion Hl1 as [|? ? H1 _]; subst.
    eexists. split;
      [|rewrite drain_cons, Hstep by (unfold is_byte in *; auto; lia); cbn [fst snd];
        rewrite drain_cons, Hstep by (unfold is_byte in *; auto; lia); cbn [fst snd];
        cbn [Main.drain length];
        replace (k * 4 + 1 + 1) with (k * 4 + Z.of_nat 2) by lia; reflexivity].
    rewrite !length_insert. reflexivity.
  - inversion Hl as [|? ? H0 Hl1]; subst. inversion Hl1 as [|? ? H1 Hl2]; subst.
    inversion Hl2 as [|? ? H2 _]; subst.
    eexists. split;
      [|rewrite drain_cons, Hstep by (unfold is_byte in *; auto; lia); cbn [fst snd];
        rewrite drain_cons, Hstep by (unfold is_byte in *; auto; lia); cbn [fst snd];
        rewrite drain_cons, Hstep by (unfold is_byte in *; auto; lia); cbn [fst snd];
        cbn [Main.drain length];
        replace (k * 4 + 1 + 1 + 1) with (k * 4 + Z.of_nat 3) by lia; reflexivity].
    rewrite !length_insert. reflexivity.
Qed.

(** The payload of a SET_LEDS frame from group number [k] on: the
    complete groups are written in order until 64 groups are in; what
    follows is dropped. *)
Lemma drain_SET_payload (m : nat) : forall payload k st d G,
  (length payload <= m)%nat -> 0 <= k <= Main.LED_COUNT ->
  Main.accepting st = true -> length d = 256%nat ->
  Forall is_byte payload ->
  k * 4 + Z.of_nat (length payload) <= 32767 ->
  let gs := take (Z.to_nat (Main.LED_COUNT - k)) (groups_of payload) in
  exists f',
    Main.drain payload (Main.mk_frame (k * 4) Main.SET_LEDS st d) G =
      (Some f', foldl Main.write_group G gs) /\
    Main.cmd f' = Main.SET_LEDS /\
    Main.state f' = match gs with [] => st | _ => Main.OK end.
Proof.
  unfold Main.LED_COUNT.
  induction m as [|m IH]; intros payload k st d G Hm Hk Hst Hd Hp Hlen;
    set (gs := take (Z.to_nat (64 - k)) (groups_of payload)).
  - destruct payload; [|simpl in Hm; lia].
    subst gs. cbn [groups_of]. rewrite take_nil. cbn [foldl Main.drain].
    eexists. split; [reflexivity|]. auto.
  - destruct (Z.eq_dec k 64) as [->|Hk64].
    + subst gs. change (Z.to_nat (64 - 64)) with 0%nat. rewrite take_0.
      cbn [foldl].
      rewrite (drain_idle Main.SET_LEDS st d (64 * 4))
        by (auto; try lia; intros; apply iteration_SET_extra; auto).
      eexists. split; [reflexivity|]. auto.
    + destruct payload as [|n [|r [|g [|b rest]]]].
      1-4: (destruct (drain_SET_tail _ k st d G ltac:(unfold Main.LED_COUNT; lia)
                        Hst Hp ltac:(simpl; lia)) as (d' & _ & E);
            rewrite E; subst gs; cbn [groups_of]; rewrite take_nil; cbn [foldl];
            eexists; split; [reflexivity|]; auto).
      inversion Hp as [|? ? Hn Hp1]; subst. inversion Hp1 as [|? ? Hr Hp2]; subst.
      inversion Hp2 as [|? ? Hg Hp3]; subst. inversion Hp3 as [|? ? Hb Hrest]; subst.
      cbn [length] in Hm, Hlen. rewrite !Nat2Z.inj_succ in Hlen.
      destruct (drain_group k st d (n, r, g, b) rest G) as (d1 & Hd1 & E1);
        [unfold Main.LED_COUNT; lia|assumption|assumption
        |unfold Main.group_bytes; cbn [fst snd];
         split; [|split; [|split]]; assumption|].
      cbn [Main.encode_groups flat_map app fst snd] in E1. rewrite E1.
      destruct (IH rest (k + 1) Main.OK d1 (Main.write_group G (n, r, g, b)))
        as (f' & E & Hc & Hs); auto; try lia.
      exists f'. subst gs. cbn [groups_of].
      replace (Z.to_nat (64 - k)) with (S (Z.to_nat (64 - (k + 1)))) by lia.
      cbn [take foldl]. split; [exact E|]. split; [exact Hc|].
      rewrite Hs. destruct (take _ _); reflexivity.
Qed.

(** X14: a SET_LEDS frame of any length (up to 32767 bytes) writes the
    complete four-byte groups of its payload in order, at most the first
    64 of them; up to three bytes of an unfinished last group and
    everything behind the 64th group are dropped without an error.  The
    response is [0x02, 0x00] when at least one group was complete and
    [0x02, 0x01] (invalid data length) otherwise. *)
Theorem SET_LEDS_frame (payload stack : list Z) (G : Main.globals) :
  length stack = 256%nat -> Forall is_byte payload ->
  Z.of_nat (length payload) < 32767 ->
  let gs := take 64 (groups_of payload) in
  Main.loop_serial (0x02 :: payload) stack G =
  (foldl Main.write_group G gs,
   [0x02; match gs with [] => 0x01 | _ => 0x00 end]).
Proof.
  intros Hstack Hp Hlen gs. unfold Main.loop_serial.
  rewrite drain_cons by lia.
  change (Main.iteration (Main.fresh stack) 2 G)
    with (Main.mk_frame 0 Main.SET_LEDS Main.INVALID_DATA_LENGTH stack, G).
  cbn [fst snd].
  destruct (drain_SET_payload (length payload) payload 0
              Main.INVALID_DATA_LENGTH stack G)
    as (f' & E & Hc & Hs); auto; try (unfold Main.LED_COUNT; lia).
  change (0 * 4) with 0 in E.
  change (Z.to_nat (Main.LED_COUNT - 0)) with 64%nat in E, Hs.
  fold gs in E, Hs. rewrite E. unfold Main.respond. rewrite Hs, Hc.
  destruct gs; reflexivity.
Qed.

Lemma SET_LEDS_frame_witness :
  let G := Main.mk_globals (NeoPixel.new 64) Main.RANDOM in
  let z := replicate 256 0 in
  Main.loop_serial [0x02; 5; 255; 0; 0; 6; 1] z G =
    (Main.write_group G (5, 255, 0, 0), [0x02; 0x00]) /\
  Main.loop_serial [0x02; 5; 255; 0] z G = (G, [0x02; 0x01]).
Proof.
  intros G z. split.
  - apply (SET_LEDS_frame [5; 255; 0; 0; 6; 1] z G eq_refl ltac:(bytes)
             ltac:(simpl; lia)).
  - apply (SET_LEDS_frame [5; 255; 0] z G eq_refl ltac:(bytes) ltac:(simpl; lia)).
Defined.

(** The frame [0x03, r, g, b] followed by bytes that are dropped. *)
Lemma loop_serial_set_leds_all (extra stack : list Z) (G : Main.globals) (r g b : Z) :
  length stack = 256%nat ->
  NeoPixel.numLEDs (Main.leds G) = Main.LED_COUNT ->
  is_byte r -> is_byte g -> is_byte b ->
  Forall is_byte extra -> Z.of_nat (length extra) <= 32763 ->
  Main.loop_serial (0x03 :: r :: g :: b :: extra) stack G =
    (Main.mk_globals
       (NeoPixel.mk (replicate 64 (r, g, b)) (replicate 64 (r, g, b))) Main.BT,
     [0x03; 0x00]).
Proof.
  intros Hlen HN Hr Hg Hb Hex Hlenx.
  assert (Hfirst : Main.iteration (Main.fresh stack) 0x03 G =
            (Main.mk_frame 0 Main.SET_LEDS_ALL Main.INVALID_DATA_LENGTH stack, G))
    by reflexivity.
  unfold NeoPixel.numLEDs, Main.LED_COUNT in HN.
  assert (HN' : length (NeoPixel.pixels (Main.leds G)) = 64%nat) by lia.
  destruct stack as [|s0 [|s1 [|s2 stack]]]; try (simpl in Hlen; lia).
  unfold Main.loop_serial.
  assert (Hr' := Hr). assert (Hg' := Hg). assert (Hb' := Hb).
  unfold is_byte in Hr', Hg', Hb'.
  rewrite drain_cons, Hfirst by lia. cbn [fst snd].
  rewrite drain_cons, iteration_SET_ALL by (auto; lia). cbn [fst snd].
  rewrite drain_cons, iteration_SET_ALL by (auto; lia). cbn [fst snd].
  rewrite drain_cons, iteration_SET_ALL by (auto; lia). cbn [fst snd].
  change (0 + 1 + 1 + 1) with 3.
  rewrite (drain_idle Main.SET_LEDS_ALL Main.OK _ 3)
    by (auto; try lia; intros; apply iteration_SET_ALL_extra; auto).
  cbn [Main.respond Main.state Main.cmd Main.leds].
  rewrite !show_fill. cbn [NeoPixel.pixels]. rewrite !length_replicate, HN'.
  change (<[Z.to_nat (0 + 1 + 1) := b]>
            (<[Z.to_nat (0 + 1) := g]>
               (<[Z.to_nat 0 := r]> (s0 :: s1 :: s2 :: stack))))
    with (r :: g :: b :: stack).
  change ((r :: g :: b :: stack) !!! 0%nat) with r.
  change ((r :: g :: b :: stack) !!! 1%nat) with g.
  change ((r :: g :: b :: stack) !!! 2%nat) with b.
  rewrite unpack_Color by assumption. reflexivity.
Qed.

(** X15: a SET_LEDS_ALL frame with extra bytes behind (r, g, b) (up to a
    frame of 32767 bytes) ends like the frame [0x03, r, g, b]: every LED
    and the strip at (r, g, b), mode [BT], response [0x03, 0x00]; the
    extra bytes are dropped.  The bare tag [0x03] changes nothing and is
    answered [0x03, 0x01]. *)
Theorem SET_LEDS_ALL_frame (extra stack : list Z) (G : Main.globals) (r g b : Z) :
  length stack = 256%nat ->
  NeoPixel.numLEDs (Main.leds G) = Main.LED_COUNT ->
  is_byte r -> is_byte g -> is_byte b ->
  Forall is_byte extra -> Z.of_nat (length extra) < 32763 ->
  Main.loop_serial (0x03 :: r :: g :: b :: extra) stack G =
    (Main.mk_globals
       (NeoPixel.mk (replicate 64 (r, g, b)) (replicate 64 (r, g, b))) Main.BT,
     [0x03; 0x00]) /\
  Main.loop_serial [0x03] stack G = (G, [0x03; 0x01]).
Proof.
  intros Hlen HN Hr Hg Hb Hex Hlenx. split; [|reflexivity].
  apply loop_serial_set_leds_all; try assumption. lia.
Qed.

Lemma SET_LEDS_ALL_frame_witness :
  let G := Main.mk_globals (NeoPixel.new 64) Main.RANDOM in
  Main.loop_serial [0x03; 10; 20; 30; 40; 50] (replicate 256 7) G =
    (Main.mk_globals
       (NeoPixel.mk (replicate 64 (10, 20, 30)) (replicate 64 (10, 20, 30))) Main.BT,
     [0x03; 0x00]).
Proof.
  intros G.
  refine (proj1 (SET_LEDS_ALL_frame [40; 50] (replicate 256 7) G 10 20 30
                   eq_refl eq_refl _ _ _ _ _));
    try (unfold is_byte; lia); [bytes|simpl; lia].
Defined.

(** ** What the serial half can change *)

Lemma drain_globals_kept input : forall f G,
  Main.cmd f = Main.GET_LEDS \/
  (Main.cmd f = Main.NONE /\
   (Main.first_tag input = Main.NONE \/ Main.first_tag input = Main.GET_LEDS)) ->
  (Main.drain input f G).2 = G.
Proof.
  induction input as [|d input IH]; intros f G H; [reflexivity|].
  cbn [Main.drain]. destruct (d <? 0); [reflexivity|].
  pose proof (iteration_fst f d G) as H1. pose proof (iteration_snd f d G) as H2.
  destruct (Main.iteration f d G) as [f1 G1]. cbn [fst snd] in H1, H2.
  assert (HG : G1 = G).
  { rewrite H2. apply dispatch_globals_kept. destruct H as [H|[H _]]; auto. }
  clear H2. subst G1. apply IH.
  assert (Hc : Main.cmd f1 = match Main.cmd f with
                             | Main.NONE => Main.cmd_of (uint8 d)
                             | c => c
                             end).
  { rewrite H1. cbn [Main.set_count Main.cmd]. apply dispatch_cmd. }
  destruct H as [H|[H Ht]].
  - left. rewrite Hc, H. reflexivity.
  - rewrite H in Hc. cbn [Main.first_tag] in Ht.
    destruct (Main.cmd_of (uint8 d)); auto;
      destruct Ht as [Ht|Ht]; discriminate Ht.
Qed.

(** X16: only the two SET commands change the device.  When the first
    command tag among the received bytes is GET_LEDS, or no byte is a
    tag, the serial half of [loop()] leaves the pixel buffer, the strip
    and the mode exactly as they were, whatever bytes follow the tag
    (also bytes that would be a SET frame on their own) and whether or
    not a read fails. *)
Theorem only_SET_commands_change_device (input stack : list Z) (G : Main.globals) :
  Main.first_tag input = Main.NONE \/ Main.first_tag input = Main.GET_LEDS ->
  (Main.loop_serial input stack G).1 = G.
Proof.
  intros H. unfold Main.loop_serial. destruct input as [|d rest]; [reflexivity|].
  pose proof (drain_globals_kept (d :: rest) (Main.fresh stack) G
                (or_intror (conj eq_refl H))) as E.
  destruct (Main.drain (d :: rest) (Main.fresh stack) G) as [[f|] G']; exact E.
Qed.

Lemma only_SET_commands_change_device_witness :
  let G := Main.mk_globals (NeoPixel.new 64) Main.RANDOM in
  (Main.loop_serial [9; 1; 2; 5; 255; 0; 0; 3; 1; 1; 1] (replicate 256 0) G).1 = G.
Proof.
  intros G.
  apply (only_SET_commands_change_device [9; 1; 2; 5; 255; 0; 0; 3; 1; 1; 1]
           (replicate 256 0) G).
  right. reflexivity.
Defined.

Lemma drain_mode_cases input : forall f G,
  Main.mode (Main.drain input f G).2 = Main.mode G \/
  Main.mode (Main.drain input f G).2 = Main.BT.
Proof.
  induction input as [|d input IH]; intros f G; [left; reflexivity|].
  cbn [Main.drain]. destruct (d <? 0); [left; reflexivity|].
  pose proof (iteration_snd f d G) as H2.
  destruct (Main.iteration f d G) as [f1 G1]. cbn [snd] in H2.
  destruct (dispatch_mode f d G) as [H|H].
  - right. apply drain_mode_BT. rewrite H2. exact H.
  - rewrite H in H2. subst G1. apply IH.
Qed.

Lemma loop_serial_mode_cases input stack G :
  Main.mode (Main.loop_serial input stack G).1 = Main.mode G \/
  Main.mode (Main.loop_serial input stack G).1 = Main.BT.
Proof.
  unfold Main.loop_serial. destruct input as [|d rest]; [left; reflexivity|].
  pose proof (drain_mode_cases (d :: rest) (Main.fresh stack) G) as H.
  destruct (Main.drain (d :: rest) (Main.fresh stack) G) as [[f|] G']; exact H.
Qed.

Lemma loop_mode_not_OFF m L a s i : (Main.loop_mode m L a s i).1.1.1 <> Main.OFF.
Proof.
  destruct m; cbn [Main.loop_mode]; try discriminate.
  destruct (Main.randomColors a L s (Main.anim_cond i) (Main.anim_set i)) as [[a' L'] s'].
  discriminate.
Qed.

(** X17: [loop()] never returns in mode [OFF]: the [OFF] branch of the
    mode switch ends by setting [RANDOM], and the serial half can only
    leave the mode as it is or set it to [BT].  With no serial input the
    mode at the end is [BT] exactly when it was [BT] and the button
    reported nothing, and [RANDOM] otherwise. *)
Theorem loop_never_ends_OFF (fw : Main.firmware) (i : Main.inputs) :
  Main.mode (Main.glob (Main.loop fw i).1) <> Main.OFF /\
  (Main.serial i = [] ->
   Main.mode (Main.glob (Main.loop fw i).1) =
   match (Button.read (Main.button fw) (Main.pin i)).1, Main.mode (Main.glob fw) with
   | Button.RELEASED, Main.BT => Main.BT
   | _, _ => Main.RANDOM
   end).
Proof.
  unfold Main.loop.
  destruct (Button.read (Main.button fw) (Main.pin i)) as [ev btn]. cbn [fst].
  pose proof (loop_mode_not_OFF (Main.loop_button ev (Main.mode (Main.glob fw)))
                (Main.leds (Main.glob fw)) (Main.anim fw) (Main.prng fw) i) as Hm.
  assert (Hnoser :
    (Main.loop_mode (Main.loop_button ev (Main.mode (Main.glob fw)))
       (Main.leds (Main.glob fw)) (Main.anim fw) (Main.prng fw) i).1.1.1 =
    match ev, Main.mode (Main.glob fw) with
    | Button.RELEASED, Main.BT => Main.BT
    | _, _ => Main.RANDOM
    end).
  { destruct ev, (Main.mode (Main.glob fw)); cbn [Main.loop_button Main.loop_mode];
      try reflexivity;
      destruct (Main.randomColors _ _ _ _ _) as [[a' L'] s']; reflexivity. }
  destruct (Main.loop_mode _ _ _ _ _) as [[[m L] a] s]. cbn [fst] in Hm, Hnoser.
  split.
  - pose proof (loop_serial_mode_cases (Main.serial i) (Main.stack i)
                  (Main.mk_globals L m)) as Hs.
    destruct (Main.loop_serial _ _ _) as [G out]. cbn [fst snd Main.glob] in Hs |- *.
    cbn [Main.mode] in Hs. destruct Hs as [Hs|Hs]; rewrite Hs; [exact Hm|discriminate].
  - intros Hser. rewrite Hser. cbn [Main.loop_serial fst Main.glob Main.mode].
    exact Hnoser.
Qed.

Lemma loop_never_ends_OFF_witness :
  let fw := Main.mk_firmware (Main.mk_globals (NeoPixel.new 64) Main.OFF)
              (Button.init 0)
              (Main.mk_animator (replicate 64 Color.zero) (replicate 64 Color.zero) 0)
              (tape_of [1; 2; 3; 4]) in
  let i := Main.mk_inputs (Button.mk_sample 1 10 10) 10 10 [] [] in
  Main.mode (Main.glob (Main.loop fw i).1) = Main.RANDOM.
Proof.
  intros fw i. exact (proj2 (loop_never_ends_OFF fw i) eq_refl).
Defined.

(** ** The shape of the device over any number of calls of [loop()] *)

Lemma lookup_total_byte (d : list Z) (k : nat) : Forall is_byte d -> is_byte (d !!! k).
Proof.
  intros H. destruct (d !! k) as [x|] eqn:E.
  - rewrite (list_lookup_total_correct _ _ _ E). exact (Forall_lookup_1 _ _ _ _ H E).
  - rewrite list_lookup_total_alt, E. unfold is_byte. vm_compute. split; congruence.
Qed.

Lemma lookup_total_color (l : list Color.color_t) (k : nat) :
  Forall Color.wf l -> Color.wf (l !!! k).
Proof.
  intros H. destruct (l !! k) as [x|] eqn:E.
  - rewrite (list_lookup_total_correct _ _ _ E). exact (Forall_lookup_1 _ _ _ _ H E).
  - rewrite list_lookup_total_alt, E. unfold Color.wf, is_byte. simpl. lia.
Qed.

Lemma wf_rgb_unpack c : NeoPixel.wf_rgb (NeoPixel.unpack c).
Proof.
  unfold NeoPixel.wf_rgb, NeoPixel.unpack. cbn [fst snd].
  split; [|split]; apply uint8_range.
Qed.

Lemma snapshot_led_bytes L d i :
  is_byte i -> Forall is_byte d -> Forall is_byte (Main.snapshot_led L d i).
Proof.
  intros Hi Hd. unfold Main.snapshot_led.
  repeat (apply Forall_insert; [|first [exact Hi|apply uint8_range]]).
  exact Hd.
Qed.

Lemma snapshot_bytes L d : Forall is_byte d -> Forall is_byte (Main.snapshot L d).
Proof.
  unfold Main.snapshot.
  assert (Hl : Forall is_byte (seqZ 0 Main.LED_COUNT)).
  { apply Forall_forall. intros x Hx. apply elem_of_seqZ in Hx.
    unfold Main.LED_COUNT in Hx. unfold is_byte. lia. }
  revert d Hl. generalize (seqZ 0 Main.LED_COUNT).
  induction l as [|i l IH]; intros d Hl Hd; [exact Hd|].
  inversion Hl as [|? ? Hi Hl']; subst. cbn [foldl].
  apply IH; [exact Hl'|]. apply snapshot_led_bytes; assumption.
Qed.

Lemma cmdGetLeds_bytes f data G :
  Forall is_byte (Main.ledData f) ->
  Forall is_byte (Main.ledData (Main.cmdGetLeds f data G)).
Proof.
  intros H. unfold Main.cmdGetLeds.
  destruct (_ <? 0); [exact H|].
  destruct (_ && _); [|exact H].
  cbn [Main.set_state Main.set_ledData Main.ledData]. apply snapshot_bytes. exact H.
Qed.

Lemma cmdSetLeds_wf f data G :
  is_byte data -> Forall is_byte (Main.ledData f) -> Main.wf_globals G ->
  Forall is_byte (Main.ledData (Main.cmdSetLeds f data G).1) /\
  Main.wf_globals (Main.cmdSetLeds f data G).2.
Proof.
  intros Hdata Hd HG. unfold Main.cmdSetLeds.
  destruct (_ <? 0); [split; assumption|].
  destruct (_ && _); [|split; assumption].
  assert (Hd' : Forall is_byte (<[Z.to_nat (Main.count f) := data]> (Main.ledData f)))
    by (apply Forall_insert; assumption).
  cbv zeta. cbn [Main.set_ledData Main.count Main.ledData].
  destruct (_ =? 3); [|split; assumption].
  destruct (_ >=? _); cbn [fst snd Main.set_state Main.ledData];
    (split; [exact Hd'|]); [exact HG|].
  destruct HG as [HN HW]. split; cbn [Main.leds].
  - rewrite numLEDs_show, numLEDs_setPixelColor. exact HN.
  - unfold NeoPixel.wf. rewrite show_pixels.
    apply wf_setPixelColor; try exact HW; apply lookup_total_byte; exact Hd'.
Qed.

Lemma cmdSetLedsAll_wf f data G :
  is_byte data -> Forall is_byte (Main.ledData f) -> Main.wf_globals G ->
  Forall is_byte (Main.ledData (Main.cmdSetLedsAll f data G).1) /\
  Main.wf_globals (Main.cmdSetLedsAll f data G).2.
Proof.
  intros Hdata Hd HG. unfold Main.cmdSetLedsAll.
  destruct (_ <? 0); [split; assumption|].
  destruct (_ && _); [|split; assumption].
  cbv zeta. cbn [fst snd Main.set_state Main.set_ledData Main.ledData].
  split; [apply Forall_insert; assumption|].
  destruct HG as [HN HW]. rewrite show_fill.
  split; cbn [Main.leds].
  - unfold NeoPixel.numLEDs in *. cbn [NeoPixel.pixels].
    rewrite length_replicate. exact HN.
  - unfold NeoPixel.wf. cbn [NeoPixel.pixels].
    apply Forall_replicate. apply wf_rgb_unpack.
Qed.

Lemma dispatch_wf f data G :
  Forall is_byte (Main.ledData f) -> Main.wf_globals G ->
  Forall is_byte (Main.ledData (Main.dispatch f data G).1) /\
  Main.wf_globals (Main.dispatch f data G).2.
Proof.
  intros Hd HG. unfold Main.dispatch. destruct (Main.cmd f).
  - assert (Hn : Forall is_byte (Main.ledData (Main.cmdNone f (uint8 data)))).
    { unfold Main.cmdNone. destruct (_ || _); exact Hd. }
    destruct (Main.cmd (Main.cmdNone f (uint8 data))); cbn [fst snd];
      try (split; assumption).
    split; [|exact HG]. apply cmdGetLeds_bytes. exact Hn.
  - cbn [fst snd]. split; [|exact HG]. apply cmdGetLeds_bytes. exact Hd.
  - apply cmdSetLeds_wf; auto using uint8_range.
  - apply cmdSetLedsAll_wf; auto using uint8_range.
Qed.

Lemma drain_wf input : forall f G,
  Forall is_byte (Main.ledData f) -> Main.wf_globals G ->
  Main.wf_globals (Main.drain input f G).2.
Proof.
  induction input as [|d input IH]; intros f G Hd HG; [exact HG|].
  cbn [Main.drain]. destruct (d <? 0); [exact HG|].
  pose proof (iteration_fst f d G) as H1. pose proof (iteration_snd f d G) as H2.
  destruct (dispatch_wf f d G Hd HG) as [Hd' HG'].
  destruct (Main.iteration f d G) as [f1 G1]. cbn [fst snd] in H1, H2.
  apply IH; [rewrite H1; exact Hd'|rewrite H2; exact HG'].
Qed.

Lemma loop_serial_wf input stack G :
  Forall is_byte stack -> Main.wf_globals G ->
  Main.wf_globals (Main.loop_serial input stack G).1.
Proof.
  intros Hs HG. unfold Main.loop_serial. destruct input as [|d rest]; [exact HG|].
  pose proof (drain_wf (d :: rest) (Main.fresh stack) G Hs HG) as H.
  destruct (Main.drain (d :: rest) (Main.fresh stack) G) as [[f|] G']; exact H.
Qed.

Lemma randomColors_pixel_wf (a : anim_acc) (i : Z) :
  wf_anim_acc a -> wf_anim_acc (Main.randomColors_pixel a i).
Proof.
  destruct a as [[[cur tgt] L] s]. intros (Hlc & Hlt & Hc & Ht & HN & HW).
  unfold Main.randomColors_pixel.
  assert (Hci : Color.wf (cur !!! Z.to_nat i)) by (apply lookup_total_color; exact Hc).
  assert (Hti : Color.wf (tgt !!! Z.to_nat i)) by (apply lookup_total_color; exact Ht).
  destruct (setRandom_advances s) as (Hnew & _ & _).
  assert (Hpick : Color.wf
            (if Color.eqb (cur !!! Z.to_nat i) (tgt !!! Z.to_nat i)
             then Color.setRandom s else (tgt !!! Z.to_nat i, s)).1)
    by (destruct (Color.eqb _ _); assumption).
  destruct (if Color.eqb (cur !!! Z.to_nat i) (tgt !!! Z.to_nat i)
            then Color.setRandom s else (tgt !!! Z.to_nat i, s)) as [ti s'].
  cbn [fst] in Hpick. unfold wf_anim_acc.
  pose proof (fadeTo_wf _ _ Hci Hpick) as Hf.
  rewrite !length_insert, numLEDs_setPixelColor.
  split; [exact Hlc|]. split; [exact Hlt|].
  split; [apply Forall_insert; assumption|].
  split; [apply Forall_insert; assumption|].
  split; [exact HN|].
  destruct Hf as (Hr & Hg & Hb). apply wf_setPixelColor; assumption.
Qed.

Lemma randomColors_wf a L s now_cond now_set :
  wf_anim_acc (Main.current a, Main.target a, L, s) ->
  wf_anim_acc
    (Main.current (Main.randomColors a L s now_cond now_set).1.1,
     Main.target (Main.randomColors a L s now_cond now_set).1.1,
     (Main.randomColors a L s now_cond now_set).1.2,
     (Main.randomColors a L s now_cond now_set).2).
Proof.
  intros H. unfold Main.randomColors.
  destruct (negb _); [exact H|].
  assert (Hfold : wf_anim_acc
            (foldl Main.randomColors_pixel (Main.current a, Main.target a, L, s)
               (seqZ 0 Main.LED_COUNT))).
  { revert H. generalize (Main.current a, Main.target a, L, s).
    generalize (seqZ 0 Main.LED_COUNT).
    induction l as [|i l IH]; intros acc H; [exact H|].
    cbn [foldl]. apply IH. apply randomColors_pixel_wf with (a := acc). exact H. }
  destruct (foldl Main.randomColors_pixel _ _) as [[[cur tgt] L'] s'].
  cbn [fst snd Main.current Main.target].
  destruct Hfold as (? & ? & ? & ? & HN & HW).
  unfold wf_anim_acc. rewrite numLEDs_show. unfold NeoPixel.wf. rewrite show_pixels.
  auto 10.
Qed.

Lemma loop_wf fw i :
  Forall is_byte (Main.stack i) -> wf_firmware fw -> wf_firmware (Main.loop fw i).1.
Proof.
  intros Hs ([HN HW] & Hlc & Hlt & Hc & Ht). unfold Main.loop.
  destruct (Button.read (Main.button fw) (Main.pin i)) as [ev btn].
  assert (Hmode :
    let r := Main.loop_mode (Main.loop_button ev (Main.mode (Main.glob fw)))
               (Main.leds (Main.glob fw)) (Main.anim fw) (Main.prng fw) i in
    wf_anim_acc (Main.current r.1.2, Main.target r.1.2, r.1.1.2, r.2)).
  { assert (H0 : wf_anim_acc (Main.current (Main.anim fw), Main.target (Main.anim fw),
                              Main.leds (Main.glob fw), Main.prng fw))
      by (unfold wf_anim_acc; auto 10).
    destruct (Main.loop_button ev (Main.mode (Main.glob fw))); cbn [Main.loop_mode].
    - cbn [fst snd]. unfold wf_anim_acc.
      rewrite numLEDs_show. unfold NeoPixel.wf. rewrite show_pixels.
      unfold NeoPixel.clear, NeoPixel.numLEDs in *. cbn [NeoPixel.pixels].
      rewrite length_replicate.
      split; [exact Hlc|]. split; [exact Hlt|]. split; [exact Hc|].
      split; [exact Ht|]. split; [exact HN|].
      apply Forall_replicate. unfold NeoPixel.wf_rgb, is_byte. simpl. lia.
    - pose proof (randomColors_wf (Main.anim fw) (Main.leds (Main.glob fw))
                    (Main.prng fw) (Main.anim_cond i) (Main.anim_set i) H0) as H.
      destruct (Main.randomColors _ _ _ _ _) as [[a' L'] s']. exact H.
    - exact H0. }
  destruct (Main.loop_mode _ _ _ _ _) as [[[m L] a] s].
  cbn [fst snd] in Hmode. destruct Hmode as (Hlc' & Hlt' & Hc' & Ht' & HN' & HW').
  pose proof (loop_serial_wf (Main.serial i) (Main.stack i) (Main.mk_globals L m) Hs
                (conj HN' HW')) as HG.
  destruct (Main.loop_serial _ _ _) as [G out]. cbn [fst] in HG |- *.
  unfold wf_firmware. cbn [Main.glob Main.anim]. auto 10.
Qed.

Lemma boot_wf t0 s : wf_firmware (Main.boot t0 s).
Proof.
  unfold wf_firmware, Main.boot. cbn [Main.glob Main.anim Main.current Main.target].
  change (Z.to_nat Main.LED_COUNT) with 64%nat.
  split; [apply wf_globals_new|]. rewrite !length_replicate.
  split; [reflexivity|]. split; [reflexivity|].
  assert (Hz : Color.wf Color.zero) by (unfold Color.wf, is_byte; simpl; lia).
  split; apply Forall_replicate; exact Hz.
Qed.

(** X19: from [setup()] on, after any number of calls of [loop()] with
    any button, clock, random and serial inputs (also malformed frames
    and failed reads), the driver holds [LED_COUNT] pixels, the animator
    holds [LED_COUNT] current and [LED_COUNT] target colors, and every
    channel of every one of them is a byte.  The only assumption is that
    the (uninitialised) [ledData] array holds bytes, as a [uint8_t]
    array does. *)
Theorem device_shape_invariant (t0 : Z) (s : rng) (ins : list Main.inputs) :
  Forall (fun i => Forall is_byte (Main.stack i)) ins ->
  wf_firmware (run (Main.boot t0 s) ins).
Proof.
  intros Hins. unfold run.
  assert (Hgen : forall fw, wf_firmware fw ->
            wf_firmware (foldl (fun fw i => (Main.loop fw i).1) fw ins)).
  { induction Hins as [|i ins Hi _ IH]; intros fw Hfw; [exact Hfw|].
    cbn [foldl]. apply IH. apply loop_wf; assumption. }
  apply Hgen. apply boot_wf.
Qed.

Lemma device_shape_invariant_witness :
  wf_firmware
    (run (Main.boot 0 (tape_of [2; 200; 3; 4]))
       [Main.mk_inputs (Button.mk_sample 1 10 10) 10 10 [] [7];
        Main.mk_inputs (Button.mk_sample 1 300 300) 300 300 [0x03; 9] [7; 8; 9]]).
Proof.
  apply device_shape_invariant.
  repeat constructor; unfold is_byte; cbn [Main.stack]; lia.
Defined.

(** ** Frames over successive calls of [loop()] *)

(** A call of [loop()] is its two switches followed by its serial half. *)
Lemma loop_unfold fw i :
  Main.loop fw i =
  (Main.mk_firmware
     (Main.loop_serial (Main.serial i) (Main.stack i)
        (Main.mk_globals (after_switches fw i).1.1.2 (after_switches fw i).1.1.1)).1
     (Button.read (Main.button fw) (Main.pin i)).2
     (after_switches fw i).1.2 (after_switches fw i).2,
   (Main.loop_serial (Main.serial i) (Main.stack i)
      (Main.mk_globals (after_switches fw i).1.1.2 (after_switches fw i).1.1.1)).2).
Proof.
  unfold Main.loop, after_switches.
  destruct (Button.read (Main.button fw) (Main.pin i)) as [ev btn]. cbn [fst snd].
  destruct (Main.loop_mode _ _ _ _ _) as [[[m L] a] s]. cbn [fst snd].
  destruct (Main.loop_serial _ _ _) as [G out]. reflexivity.
Qed.

Lemma after_switches_BT fw i :
  Main.mode (Main.glob fw) = Main.BT ->
  (Button.read (Main.button fw) (Main.pin i)).1 = Button.RELEASED ->
  after_switches fw i =
  (Main.BT, Main.leds (Main.glob fw), Main.anim fw, Main.prng fw).
Proof.
  intros Hm Hev. unfold after_switches. rewrite Hev, Hm. reflexivity.
Qed.

Lemma randomColors_pixel_numLEDs (a : anim_acc) (i : Z) :
  NeoPixel.numLEDs (Main.randomColors_pixel a i).1.2 = NeoPixel.numLEDs a.1.2.
Proof.
  destruct a as [[[cur tgt] L] s]. unfold Main.randomColors_pixel.
  destruct (if Color.eqb (cur !!! Z.to_nat i) (tgt !!! Z.to_nat i)
            then Color.setRandom s else (tgt !!! Z.to_nat i, s)) as [ti s'].
  cbn [fst snd]. apply numLEDs_setPixelColor.
Qed.

Lemma randomColors_numLEDs a L s now_cond now_set :
  NeoPixel.numLEDs (Main.randomColors a L s now_cond now_set).1.2 = NeoPixel.numLEDs L.
Proof.
  unfold Main.randomColors. destruct (negb _); [reflexivity|].
  assert (Hfold : forall l (acc : anim_acc),
            NeoPixel.numLEDs (foldl Main.randomColors_pixel acc l).1.2 =
            NeoPixel.numLEDs acc.1.2).
  { induction l as [|i l IH]; intros acc; [reflexivity|].
    cbn [foldl]. rewrite IH. apply randomColors_pixel_numLEDs. }
  specialize (Hfold (seqZ 0 Main.LED_COUNT) (Main.current a, Main.target a, L, s)).
  destruct (foldl Main.randomColors_pixel _ _) as [[[cur tgt] L'] s'].
  cbn [fst snd] in Hfold |- *. rewrite numLEDs_show. exact Hfold.
Qed.

Lemma loop_mode_numLEDs m L a s i :
  NeoPixel.numLEDs (Main.loop_mode m L a s i).1.1.2 = NeoPixel.numLEDs L.
Proof.
  destruct m; cbn [Main.loop_mode].
  - cbn [fst snd]. unfold NeoPixel.numLEDs, NeoPixel.show, NeoPixel.clear.
    cbn [NeoPixel.pixels]. rewrite length_replicate. reflexivity.
  - pose proof (randomColors_numLEDs a L s (Main.anim_cond i) (Main.anim_set i)) as H.
    destruct (Main.randomColors _ _ _ _ _) as [[a' L'] s']. exact H.
  - reflexivity.
Qed.












(** X20: GET_LEDS after SET_LEDS_ALL, over two calls of [loop()] on a
    64-LED driver.  The first call, whatever the mode and the button
    event, receives [0x03, r, g, b] followed by any bytes (a frame of at
    most 32767 bytes) and answers [0x03, 0x00]; the next call, in which
    [button.read()] reports nothing, receives [0x01] and answers with
    258 bytes: [0x01, 0x00], then the quadruple (j, r, g, b) for every
    LED j in ascending order. *)
Theorem GET_LEDS_after_SET_LEDS_ALL
    (fw : Main.firmware) (i1 i2 : Main.inputs) (r g b : Z) (extra : list Z) :
  NeoPixel.numLEDs (Main.leds (Main.glob fw)) = Main.LED_COUNT ->
  Main.serial i1 = 0x03 :: r :: g :: b :: extra ->
  is_byte r -> is_byte g -> is_byte b ->
  Forall is_byte extra -> Z.of_nat (length extra) <= 32763 ->
  length (Main.stack i1) = 256%nat ->
  Main.serial i2 = [0x01] -> length (Main.stack i2) = 256%nat ->
  (Button.read (Main.button (Main.loop fw i1).1) (Main.pin i2)).1 = Button.RELEASED ->
  let out := (Main.loop (Main.loop fw i1).1 i2).2 in
  (Main.loop fw i1).2 = [0x03; 0x00] /\
  length out = 258%nat /\
  take 2 out = [0x01; 0x00] /\
  forall j : nat, (j < 64)%nat ->
    take 4 (drop (2 + 4 * j) out) = [Z.of_nat j; r; g; b].
Proof.
  intros HN Hs1 Hr Hg Hb Hex Hlen Hk1 Hs2 Hk2 Hev out.
  set (G1 := Main.mk_globals
               (NeoPixel.mk (replicate 64 (r, g, b)) (replicate 64 (r, g, b))) Main.BT).
  assert (HG1 : Main.wf_globals G1).
  { split; [reflexivity|]. unfold NeoPixel.wf, G1. cbn [Main.leds NeoPixel.pixels].
    apply Forall_replicate. split; [|split]; assumption. }
  assert (E1 : Main.loop fw i1 =
            (Main.mk_firmware G1 (Button.read (Main.button fw) (Main.pin i1)).2
               (after_switches fw i1).1.2 (after_switches fw i1).2,
             [0x03; 0x00])).
  { rewrite loop_unfold, Hs1.
    rewrite (loop_serial_set_leds_all extra (Main.stack i1) _ r g b); try assumption.
    - reflexivity.
    - cbn [Main.leds]. unfold after_switches. rewrite loop_mode_numLEDs. exact HN. }
  unfold out. rewrite E1 in Hev |- *. cbn [fst snd Main.button] in Hev |- *.
  split; [reflexivity|].
  rewrite loop_unfold, after_switches_BT by (cbn [Main.glob Main.button]; auto).
  cbn [fst snd Main.glob]. rewrite Hs2.
  change (Main.mk_globals (Main.leds G1) Main.BT) with G1.
  rewrite (loop_serial_get_leds (Main.stack i2) G1 HG1 Hk2). cbn [snd].
  split; [rewrite length_app; unfold Main.quadruples;
          rewrite length_quadruples_from; reflexivity|].
  split; [reflexivity|].
  intros j Hj. change (2 + 4 * j)%nat with (length [1; 0] + 4 * j)%nat.
  rewrite drop_app_add' by reflexivity.
  unfold Main.quadruples. cbn [G1 Main.leds NeoPixel.pixels].
  rewrite (quadruples_lookup _ 0 j (r, g, b))
    by (apply lookup_replicate_2; exact Hj).
  reflexivity.
Qed.

Lemma GET_LEDS_after_SET_LEDS_ALL_witness :
  let fw := Main.boot 0 (tape_of [0; 200; 5; 3]) in
  let z := replicate 256 7 in
  let i1 := Main.mk_inputs (Button.mk_sample 0 300 300) 300 300 [0x03; 10; 20; 30; 99] z in
  let i2 := Main.mk_inputs (Button.mk_sample 0 400 400) 400 400 [0x01] z in
  (Main.loop fw i1).2 = [0x03; 0x00] /\
  take 4 (drop (2 + 4 * 5) (Main.loop (Main.loop fw i1).1 i2).2) = [5; 10; 20; 30].
Proof.
  intros fw z i1 i2.
  destruct (GET_LEDS_after_SET_LEDS_ALL fw i1 i2 10 20 30 [99]
              eq_refl eq_refl ltac:(unfold is_byte; lia)
              ltac:(unfold is_byte; lia) ltac:(unfold is_byte; lia)
              ltac:(bytes) ltac:(simpl; lia) eq_refl eq_refl eq_refl eq_refl)
    as (H1 & _ & _ & H4).
  split; [exact H1|]. exact (H4 5%nat ltac:(lia)).
Defined.
